(** * cppformlang: finite automata, context-free grammars, regular expressions

    A shallow embedding of the C++ sources.  Objects live behind
    [std::shared_ptr]; the containers of the library are of two kinds:

    - [std::unordered_set<std::shared_ptr<T>>] uses the default hash and
      equality of [shared_ptr], i.e. the identity of the pointee;
    - the transition tables are [std::unordered_map]s with the custom
      [PairHash]/[PairEqual], which dereference the pointers and compare the
      labels with [operator==].

    Both notions of equality are kept apart here: a pointer is an address
    together with the (immutable) object it points to, sets of pointers are
    [gset]s of such pointers, and the transition tables are [gmap]s keyed by
    the pair of labels. *)

From stdpp Require Import gmap strings list fin_maps sets.

Set Warnings "-clear-no-such-hyp".

(** ** Shared pointers *)

(** A non-null [std::shared_ptr<A>]: the address of the object and the object
    itself (no class of the library has a mutator for its label, so the pointee
    never changes).  A possibly-null pointer is an [option (Ptr A)].  The
    operations that dereference their arguments, as the transition tables do
    when they hash a key, are embedded on non-null pointers. *)
Record Ptr (A : Type) := mkPtr { addr : N; deref : A }.
Arguments mkPtr {A} _ _.
Arguments addr {A} _.
Arguments deref {A} _.

#[global] Instance Ptr_eq_dec {A} `{EqDecision A} : EqDecision (Ptr A).
Proof. solve_decision. Defined.

#[global] Instance Ptr_countable {A} `{Countable A} : Countable (Ptr A).
Proof.
  refine (inj_countable' (fun p => (addr p, deref p))
                         (fun '(a, d) => mkPtr a d) _).
  by intros [].
Defined.

(** [static_pointer_cast]/implicit conversions between pointer types keep the
    address and change the view of the pointee. *)
Definition pointer_cast {A B} (f : A -> B) (p : Ptr A) : Ptr B :=
  mkPtr (addr p) (f (deref p)).

(** [size_t] is taken to have 64 bits; the arithmetic on it wraps around. *)
Definition size_t (z : Z) : Z := (z mod 2 ^ 64)%Z.

(** ** Finite automata *)

Module finite_automaton.

(** *** state.h *)

Record State := mkState { state_value : string }.

#[global] Instance State_eq_dec : EqDecision State.
Proof. solve_decision. Defined.

#[global] Instance State_countable : Countable State.
Proof. refine (inj_countable' state_value mkState _). by intros []. Defined.

(** [State::operator==] *)
Definition State_eq (this other : State) : bool :=
  String.eqb (state_value this) (state_value other).

(** *** symbol.h, epsilon.h

    [class Epsilon : public Symbol] with constructor [Epsilon() : Symbol("ε")].
    The constructor of the datatype is the dynamic class of the object. *)

Inductive Symbol :=
| Symbol_obj (value_ : string)
| Epsilon_obj.

#[global] Instance Symbol_eq_dec : EqDecision Symbol.
Proof. solve_decision. Defined.

Definition Symbol_to_option (s : Symbol) : option string :=
  match s with Symbol_obj v => Some v | Epsilon_obj => None end.

Definition Symbol_of_option (o : option string) : Symbol :=
  match o with Some v => Symbol_obj v | None => Epsilon_obj end.

#[global] Instance Symbol_countable : Countable Symbol.
Proof.
  refine (inj_countable' Symbol_to_option Symbol_of_option _). by intros [].
Defined.

(** [Symbol::value()] *)
Definition symbol_value (s : Symbol) : string :=
  match s with
  | Symbol_obj v => v
  | Epsilon_obj => "ε"
  end.

(** [Symbol::operator==(const Symbol&)].  It is not virtual: it is the
    operator selected whenever the static type of the left operand is
    [Symbol], whatever the dynamic classes are. *)
Definition Symbol_eq (this other : Symbol) : bool :=
  String.eqb (symbol_value this) (symbol_value other).

(** [Symbol::operator!=] *)
Definition Symbol_neq (this other : Symbol) : bool :=
  negb (Symbol_eq this other).

(** [dynamic_cast<const Epsilon*>(&other) != nullptr] *)
Definition is_Epsilon (other : Symbol) : bool :=
  match other with Epsilon_obj => true | Symbol_obj _ => false end.

(** [Epsilon::operator==(const Epsilon&)]: both operands statically
    [Epsilon]. *)
Definition Epsilon_eq_Epsilon (this other : Symbol) : bool := true.

(** [Epsilon::operator==(const Symbol&)]: left operand statically [Epsilon].
    ([Symbol] has no virtual member, which a [dynamic_cast] down from it
    needs; the definition is what the operator is written to compute, as its
    counterpart of cfg/epsilon.h does on the polymorphic [CFGObject].) *)
Definition Epsilon_eq_Symbol (this other : Symbol) : bool := is_Epsilon other.

Abbreviation StatePtr := (Ptr State).
Abbreviation SymbolPtr := (Ptr Symbol).
Abbreviation StateSet := (gset (Ptr State)).
Abbreviation SymbolSet := (gset (Ptr Symbol)).

(** The key of a transition table as [PairHash]/[PairEqual] see it:
    [*p1.first == *p2.first && *p1.second == *p2.second], with
    [State::operator==] and [Symbol::operator==]. *)
Definition key (from_state : StatePtr) (symbol : SymbolPtr) : string * string :=
  (state_value (deref from_state), symbol_value (deref symbol)).

(** [std::hash<State>], [std::hash<Symbol>], [std::hash<Epsilon>].  The hash of
    a [std::string] is left to the implementation: it is the parameter
    [hash_string]. *)
Definition hash_State (hash_string : string → Z) (state : State) : Z :=
  size_t (hash_string (state_value state)).

Definition hash_Symbol (hash_string : string → Z) (symbol : Symbol) : Z :=
  size_t (hash_string (symbol_value symbol)).

Definition hash_Epsilon (e : Symbol) : Z := 0%Z.

(** [PairHash] and [PairEqual] of the two transition tables, instantiated at
    [T1 = State] and [T2 = Symbol]: [h1 ^ (h2 << 1)] and
    [*p1.first == *p2.first && *p1.second == *p2.second]. *)
Definition PairHash (hash_string : string → Z) (p : StatePtr * SymbolPtr) : Z :=
  Z.lxor (hash_State hash_string (deref p.1))
         (size_t (Z.shiftl (hash_Symbol hash_string (deref p.2)) 1)).

Definition PairEqual (p1 p2 : StatePtr * SymbolPtr) : bool :=
  State_eq (deref p1.1) (deref p2.1) && Symbol_eq (deref p1.2) (deref p2.2).

(** *** transition_function.h *)

Module TransitionFunction.

(** [transitions_]: for each key (up to [PairEqual]) the pair of pointers
    stored as the key and the mapped target. *)
Record t := mk { transitions_ : gmap (string * string) (StatePtr * SymbolPtr * StatePtr) }.

Definition empty : t := mk ∅.

(** [transitions_[{from_state, symbol}] = to_state]: [operator[]] keeps the
    stored key when an equal key is present and assigns the mapped value. *)
Definition add_transition (tf : t) (from_state : StatePtr) (symbol : SymbolPtr)
    (to_state : StatePtr) : t :=
  match transitions_ tf !! key from_state symbol with
  | Some (from0, symbol0, _) =>
      mk (<[key from_state symbol := (from0, symbol0, to_state)]> (transitions_ tf))
  | None =>
      mk (<[key from_state symbol := (from_state, symbol, to_state)]> (transitions_ tf))
  end.

Definition get_next_state (tf : t) (from_state : StatePtr) (symbol : SymbolPtr)
    : option StatePtr :=
  match transitions_ tf !! key from_state symbol with
  | Some (_, _, to_state) => Some to_state
  | None => None
  end.

Definition has_transition (tf : t) (from_state : StatePtr) (symbol : SymbolPtr)
    (to_state : StatePtr) : bool :=
  match transitions_ tf !! key from_state symbol with
  | Some (_, _, to_state0) => bool_decide (to_state0 = to_state)
  | None => false
  end.

Definition get_transitions (tf : t) : list (StatePtr * SymbolPtr * StatePtr) :=
  snd <$> map_to_list (transitions_ tf).

Definition get_next_states_iterable (tf : t) (from_state : StatePtr)
    (symbol : SymbolPtr) : StateSet :=
  match get_next_state tf from_state symbol with
  | Some next_state => {[ next_state ]}
  | None => ∅
  end.

End TransitionFunction.

(** *** nondeterministic_transition_function.h *)

Module NondeterministicTransitionFunction.

Record t := mk { transitions_ : gmap (string * string) (StatePtr * SymbolPtr * StateSet) }.

Definition empty : t := mk ∅.

(** [transitions_[{from_state, symbol}].insert(to_state)] *)
Definition add_transition (tf : t) (from_state : StatePtr) (symbol : SymbolPtr)
    (to_state : StatePtr) : t :=
  match transitions_ tf !! key from_state symbol with
  | Some (from0, symbol0, to_states) =>
      mk (<[key from_state symbol := (from0, symbol0, {[ to_state ]} ∪ to_states)]>
            (transitions_ tf))
  | None =>
      mk (<[key from_state symbol := (from_state, symbol, {[ to_state ]})]>
            (transitions_ tf))
  end.

Definition get_next_states (tf : t) (from_state : StatePtr) (symbol : SymbolPtr)
    : StateSet :=
  match transitions_ tf !! key from_state symbol with
  | Some (_, _, to_states) => to_states
  | None => ∅
  end.

Definition has_transition (tf : t) (from_state : StatePtr) (symbol : SymbolPtr)
    (to_state : StatePtr) : bool :=
  match transitions_ tf !! key from_state symbol with
  | Some (_, _, to_states) => bool_decide (to_state ∈ to_states)
  | None => false
  end.

Definition get_transitions (tf : t) : list (StatePtr * SymbolPtr * StatePtr) :=
  '(from_state, symbol, to_states) ← snd <$> map_to_list (transitions_ tf);
  (fun to_state => (from_state, symbol, to_state)) <$> elements to_states.

End NondeterministicTransitionFunction.

(** *** nondeterministic_finite_automaton.h *)

Module NondeterministicFiniteAutomaton.

Record t := mk {
  states_ : StateSet;
  input_symbols_ : SymbolSet;
  transition_function_ : NondeterministicTransitionFunction.t;
  start_states_ : StateSet;
  final_states_ : StateSet
}.

(** The constructor: a null [transition_function] is replaced by a new, empty
    one; the five arguments are stored as they are. *)
Definition new (states : StateSet) (input_symbols : SymbolSet)
    (transition_function : option NondeterministicTransitionFunction.t)
    (start_states final_states : StateSet) : t :=
  mk states input_symbols
     (default NondeterministicTransitionFunction.empty transition_function)
     start_states final_states.

(** One round of the loop over [word]: [next_states] collects
    [get_next_states(state, symbol)] for every [state] of [current_states]. *)
Definition next_states (a : t) (current_states : StateSet) (symbol : SymbolPtr)
    : StateSet :=
  foldl (fun next state =>
           NondeterministicTransitionFunction.get_next_states
             (transition_function_ a) state symbol ∪ next)
        ∅ (elements current_states).

(** [current_states] when the loop over [word] is over. *)
Definition current_states (a : t) (word : list SymbolPtr) : StateSet :=
  foldl (next_states a) (start_states_ a) word.

Definition accepts (a : t) (word : list SymbolPtr) : bool :=
  existsb (fun state => bool_decide (state ∈ final_states_ a))
          (elements (current_states a word)).

Definition add_transition (a : t) (from_state : StatePtr) (symbol : SymbolPtr)
    (to_state : StatePtr) : t :=
  mk ({[ to_state ]} ∪ ({[ from_state ]} ∪ states_ a))
     ({[ symbol ]} ∪ input_symbols_ a)
     (NondeterministicTransitionFunction.add_transition
        (transition_function_ a) from_state symbol to_state)
     (start_states_ a)
     (final_states_ a).

Definition add_start_state (a : t) (state : StatePtr) : t :=
  mk ({[ state ]} ∪ states_ a) (input_symbols_ a) (transition_function_ a)
     ({[ state ]} ∪ start_states_ a) (final_states_ a).

Definition add_final_state (a : t) (state : StatePtr) : t :=
  mk ({[ state ]} ∪ states_ a) (input_symbols_ a) (transition_function_ a)
     (start_states_ a) ({[ state ]} ∪ final_states_ a).

Definition accepts_epsilon (a : t) : bool :=
  existsb (fun state => bool_decide (state ∈ final_states_ a))
          (elements (start_states_ a)).

(** The inherited [FiniteAutomaton::accepts(const std::vector<std::string>&)]:
    one new [Symbol] per label, the first of them at the address [heap], then
    the call of [accepts] on the symbols. *)
Definition accepts_strings (heap : N) (a : t) (word : list string) : bool :=
  accepts a (imap (fun i symbol_str => mkPtr (heap + N.of_nat i) (Symbol_obj symbol_str))
                  word).

End NondeterministicFiniteAutomaton.

(** *** deterministic_finite_automaton.h

    [class DeterministicFiniteAutomaton : public NondeterministicFiniteAutomaton]
    adds the member [transition_function_dfa_]. *)

Module DeterministicFiniteAutomaton.

Module NFA := NondeterministicFiniteAutomaton.

Record t := mk {
  base : NFA.t;
  transition_function_dfa_ : TransitionFunction.t
}.

Definition states_ (d : t) : StateSet := NFA.states_ (base d).
Definition input_symbols_ (d : t) : SymbolSet := NFA.input_symbols_ (base d).
Definition start_states_ (d : t) : StateSet := NFA.start_states_ (base d).
Definition final_states_ (d : t) : StateSet := NFA.final_states_ (base d).

(** The constructor: the base is built with a null transition function and no
    start state; a non-null [start_state] joins [start_states_] and
    [states_]. *)
Definition new (states : StateSet) (input_symbols : SymbolSet)
    (transition_function : option TransitionFunction.t)
    (start_state : option StatePtr) (final_states : StateSet) : t :=
  let b := NFA.new states input_symbols None ∅ final_states in
  let tf := default TransitionFunction.empty transition_function in
  match start_state with
  | Some q =>
      mk (NFA.mk ({[ q ]} ∪ NFA.states_ b) (NFA.input_symbols_ b)
                 (NFA.transition_function_ b)
                 ({[ q ]} ∪ NFA.start_states_ b) (NFA.final_states_ b)) tf
  | None => mk b tf
  end.

(** [start_states_.empty() ? nullptr : *start_states_.begin()] *)
Definition start_state (d : t) : option StatePtr :=
  head (elements (start_states_ d)).

(** The loop of [accepts]: [None] when [get_next_state] returned null. *)
Fixpoint run (tf : TransitionFunction.t) (current_state : StatePtr)
    (word : list SymbolPtr) : option StatePtr :=
  match word with
  | [] => Some current_state
  | symbol :: rest =>
      match TransitionFunction.get_next_state tf current_state symbol with
      | Some next => run tf next rest
      | None => None
      end
  end.

Definition accepts (d : t) (word : list SymbolPtr) : bool :=
  match start_state d with
  | None => false
  | Some q0 =>
      match run (transition_function_dfa_ d) q0 word with
      | None => false
      | Some current_state => bool_decide (current_state ∈ final_states_ d)
      end
  end.

(** [FiniteAutomaton::accepts(const std::vector<std::string>&)]: every label
    becomes a new [Symbol]; [heap] is the address of the first one. *)
Definition symbol_word (heap : N) (word : list string) : list SymbolPtr :=
  imap (fun i symbol_str => mkPtr (heap + N.of_nat i) (Symbol_obj symbol_str)) word.

Definition accepts_strings (heap : N) (d : t) (word : list string) : bool :=
  accepts d (symbol_word heap word).

Definition add_transition (d : t) (from_state : StatePtr) (symbol : SymbolPtr)
    (to_state : StatePtr) : t :=
  mk (NFA.mk ({[ to_state ]} ∪ ({[ from_state ]} ∪ states_ d))
             ({[ symbol ]} ∪ input_symbols_ d)
             (NFA.transition_function_ (base d))
             (start_states_ d) (final_states_ d))
     (TransitionFunction.add_transition (transition_function_dfa_ d)
        from_state symbol to_state).

(** [states_.insert(state); start_states_.clear(); start_states_.insert(state)] *)
Definition set_start_state (d : t) (state : StatePtr) : t :=
  mk (NFA.mk ({[ state ]} ∪ states_ d) (input_symbols_ d)
             (NFA.transition_function_ (base d))
             {[ state ]} (final_states_ d))
     (transition_function_dfa_ d).

(** The inherited builders act on the base. *)
Definition add_start_state (d : t) (state : StatePtr) : t :=
  mk (NFA.add_start_state (base d) state) (transition_function_dfa_ d).

Definition add_final_state (d : t) (state : StatePtr) : t :=
  mk (NFA.add_final_state (base d) state) (transition_function_dfa_ d).

Definition is_complete (d : t) : bool :=
  forallb (fun state =>
    forallb (fun symbol =>
      bool_decide (is_Some (TransitionFunction.get_next_state
                              (transition_function_dfa_ d) state symbol)))
      (elements (input_symbols_ d)))
    (elements (states_ d)).

(** The two loops of [make_complete] over the transition function of
    [result]. *)
Definition fill_missing (sink_state : StatePtr) (states : list StatePtr)
    (symbols : list SymbolPtr) (tf : TransitionFunction.t) : TransitionFunction.t :=
  foldl (fun tf state =>
    foldl (fun tf symbol =>
      match TransitionFunction.get_next_state tf state symbol with
      | Some _ => tf
      | None => TransitionFunction.add_transition tf state symbol sink_state
      end) tf symbols) tf states.

Definition sink_loops (sink_state : StatePtr) (symbols : list SymbolPtr)
    (tf : TransitionFunction.t) : TransitionFunction.t :=
  foldl (fun tf symbol =>
           TransitionFunction.add_transition tf sink_state symbol sink_state)
        tf symbols.

(** [make_complete]; [heap] is the address at which the sink state is
    allocated.  The copy constructor copies the [shared_ptr] to the transition
    function, so the transitions added to [result] are added to the one
    function object that [result] and [*this] share; the value returned here
    is that object as seen through [result]. *)
Definition make_complete (heap : N) (d : t) : t :=
  if is_complete d then d
  else
    let sink_state := mkPtr heap (mkState "sink") in
    let states := {[ sink_state ]} ∪ states_ d in
    let symbols := elements (input_symbols_ d) in
    mk (NFA.mk states (input_symbols_ d) (NFA.transition_function_ (base d))
               (start_states_ d) (final_states_ d))
       (sink_loops sink_state symbols
          (fill_missing sink_state (elements states) symbols
             (transition_function_dfa_ d))).

(** The loop of [complement] over the states of [complete_dfa]. *)
Definition mark_non_final (final : StateSet) (result : t) (states : list StatePtr) : t :=
  foldl (fun result state =>
           if bool_decide (state ∈ final) then result
           else add_final_state result state)
        result states.

Definition complement (heap : N) (d : t) : t :=
  let complete_dfa := make_complete heap d in
  let result :=
    new (states_ complete_dfa) (input_symbols_ complete_dfa)
        (Some (transition_function_dfa_ complete_dfa))
        (start_state complete_dfa) ∅ in
  mark_non_final (final_states_ complete_dfa) result
                 (elements (states_ complete_dfa)).

(** [minimize] is a placeholder that returns a null pointer. *)
Definition minimize (d : t) : option t := None.

End DeterministicFiniteAutomaton.

(** *** epsilon_nfa.h *)

Module EpsilonNFA.

Module NFA := NondeterministicFiniteAutomaton.

Record t := mk {
  base : NFA.t;
  epsilon_ : SymbolPtr
}.

(** The constructor; [heap] is the address of the [Epsilon] object made by
    [std::make_shared<Epsilon>()]. *)
Definition new (heap : N) (states : StateSet) (input_symbols : SymbolSet)
    (transition_function : option NondeterministicTransitionFunction.t)
    (start_states final_states : StateSet) : t :=
  mk (NFA.new states input_symbols transition_function start_states final_states)
     (mkPtr heap Epsilon_obj).

Definition add_epsilon_transition (a : t) (from_state to_state : StatePtr) : t :=
  mk (NFA.mk ({[ to_state ]} ∪ ({[ from_state ]} ∪ NFA.states_ (base a)))
             (NFA.input_symbols_ (base a))
             (NondeterministicTransitionFunction.add_transition
                (NFA.transition_function_ (base a)) from_state (epsilon_ a) to_state)
             (NFA.start_states_ (base a)) (NFA.final_states_ (base a)))
     (epsilon_ a).

(** The inherited builders act on the base. *)
Definition add_transition (a : t) (from_state : StatePtr) (symbol : SymbolPtr)
    (to_state : StatePtr) : t :=
  mk (NFA.add_transition (base a) from_state symbol to_state) (epsilon_ a).

Definition add_start_state (a : t) (state : StatePtr) : t :=
  mk (NFA.add_start_state (base a) state) (epsilon_ a).

Definition add_final_state (a : t) (state : StatePtr) : t :=
  mk (NFA.add_final_state (base a) state) (epsilon_ a).

(** The two overloads of [epsilon_closure] are placeholders. *)
Definition epsilon_closure_state (a : t) (state : StatePtr) : StateSet := {[ state ]}.
Definition epsilon_closure (a : t) (states : StateSet) : StateSet := states.

(** [accepts] is a placeholder: [return false]. *)
Definition accepts (a : t) (word : list SymbolPtr) : bool := false.

(** [to_deterministic] is a placeholder: [return nullptr]. *)
Definition to_deterministic (a : t) : option DeterministicFiniteAutomaton.t := None.

End EpsilonNFA.

End finite_automaton.

(** ** Context-free grammars *)

Module cfg.

(** *** cfg_object.h, variable.h, terminal.h, epsilon.h *)

Record Variable_ := mkVariable { variable_value : string }.
Record Terminal := mkTerminal { terminal_value : string }.

(** An object of a class derived from [CFGObject]; the constructor is its
    dynamic class.  [Epsilon() : CFGObject("ε")]. *)
Inductive CFGObject :=
| Variable_obj (v : Variable_)
| Terminal_obj (t : Terminal)
| Epsilon_obj.

#[global] Instance Variable_eq_dec : EqDecision Variable_.
Proof. solve_decision. Defined.
#[global] Instance Terminal_eq_dec : EqDecision Terminal.
Proof. solve_decision. Defined.
#[global] Instance CFGObject_eq_dec : EqDecision CFGObject.
Proof. solve_decision. Defined.

#[global] Instance Variable_countable : Countable Variable_.
Proof. refine (inj_countable' variable_value mkVariable _). by intros []. Defined.
#[global] Instance Terminal_countable : Countable Terminal.
Proof. refine (inj_countable' terminal_value mkTerminal _). by intros []. Defined.

Definition CFGObject_to_sum (o : CFGObject) : Variable_ + Terminal + unit :=
  match o with
  | Variable_obj v => inl (inl v)
  | Terminal_obj t => inl (inr t)
  | Epsilon_obj => inr tt
  end.

Definition CFGObject_of_sum (s : Variable_ + Terminal + unit) : CFGObject :=
  match s with
  | inl (inl v) => Variable_obj v
  | inl (inr t) => Terminal_obj t
  | inr _ => Epsilon_obj
  end.

#[global] Instance CFGObject_countable : Countable CFGObject.
Proof.
  refine (inj_countable' CFGObject_to_sum CFGObject_of_sum _). by intros [].
Defined.

(** [CFGObject::value()] *)
Definition value (o : CFGObject) : string :=
  match o with
  | Variable_obj v => variable_value v
  | Terminal_obj t => terminal_value t
  | Epsilon_obj => "ε"
  end.

(** [CFGObject::type()] *)
Definition type (o : CFGObject) : string :=
  match o with
  | Variable_obj _ => "Variable"
  | Terminal_obj _ => "Terminal"
  | Epsilon_obj => "Epsilon"
  end.

(** [CFGObject::operator==(const CFGObject&)], not virtual: selected when the
    static type of the left operand is [CFGObject], [Variable] or
    [Terminal]. *)
Definition CFGObject_eq (this other : CFGObject) : bool :=
  String.eqb (value this) (value other).

(** [CFGObject::operator!=] *)
Definition CFGObject_neq (this other : CFGObject) : bool :=
  negb (CFGObject_eq this other).

(** [dynamic_cast<const Epsilon*>(&other) != nullptr] *)
Definition is_Epsilon (other : CFGObject) : bool :=
  match other with Epsilon_obj => true | _ => false end.

(** [Epsilon::operator==(const Epsilon&)] *)
Definition Epsilon_eq_Epsilon (this other : CFGObject) : bool := true.

(** [Epsilon::operator==(const CFGObject&)] *)
Definition Epsilon_eq_CFGObject (this other : CFGObject) : bool := is_Epsilon other.

Abbreviation CFGObjectPtr := (Ptr CFGObject).
Abbreviation VariablePtr := (Ptr Variable_).
Abbreviation TerminalPtr := (Ptr Terminal).

(** Conversion of a [shared_ptr<Variable>] or [shared_ptr<Terminal>] to a
    [shared_ptr<CFGObject>]. *)
Definition of_variable (v : VariablePtr) : CFGObjectPtr := pointer_cast Variable_obj v.
Definition of_terminal (t : TerminalPtr) : CFGObjectPtr := pointer_cast Terminal_obj t.

(** [std::dynamic_pointer_cast<Terminal>], [std::dynamic_pointer_cast<Variable>] *)
Definition to_terminal (o : CFGObjectPtr) : option TerminalPtr :=
  match deref o with Terminal_obj t => Some (mkPtr (addr o) t) | _ => None end.
Definition to_variable (o : CFGObjectPtr) : option VariablePtr :=
  match deref o with Variable_obj v => Some (mkPtr (addr o) v) | _ => None end.

(** *** production.h *)

Module Production.

Record t := mk { head_ : VariablePtr; body_ : list CFGObjectPtr }.

#[global] Instance eq_dec : EqDecision t.
Proof. solve_decision. Defined.

#[global] Instance countable : Countable t.
Proof.
  refine (inj_countable' (fun p => (head_ p, body_ p)) (fun '(h, b) => mk h b) _).
  by intros [].
Defined.

(** The constructor: with [filtering] the objects of dynamic class [Epsilon]
    are erased from the body. *)
Definition new (head : VariablePtr) (body : list CFGObjectPtr) (filtering : bool) : t :=
  mk head (if filtering then filter (fun obj => is_Epsilon (deref obj) = false) body
           else body).

(** [Production::operator==] *)
Definition eq (this other : t) : bool :=
  if negb (String.eqb (variable_value (deref (head_ this)))
                      (variable_value (deref (head_ other))))
     || negb (length (body_ this) =? length (body_ other))
  then false
  else forallb (fun '(a, b) => negb (CFGObject_neq (deref a) (deref b)))
               (zip (body_ this) (body_ other)).

(** [std::hash<Production>]: the hash of the label of the head, combined with
    the hash of the label of each object of the body by
    [result ^= h + 0x9e3779b9 + (result << 6) + (result >> 2)]. *)
Definition hash (hash_string : string → Z) (prod : t) : Z :=
  foldl (fun result obj =>
           Z.lxor result
             (size_t (size_t (hash_string (value (deref obj))) + 0x9e3779b9
                      + size_t (Z.shiftl result 6) + Z.shiftr result 2)))
        (size_t (hash_string (variable_value (deref (head_ prod)))))
        (body_ prod).

End Production.

Abbreviation ProductionPtr := (Ptr Production.t).

(** *** cfg.h, cfg.cpp *)

Module CFG.

#[warnings="-register-all"]
Inductive t := mk {
  variables_ : gset VariablePtr;
  terminals_ : gset TerminalPtr;
  start_symbol_ : option VariablePtr;
  productions_ : gset ProductionPtr;
  normal_form_ : option (Ptr t);
  generating_symbols_ : option (gset CFGObjectPtr);
  nullable_symbols_ : option (gset CFGObjectPtr);
  impacts_ : gmap CFGObjectPtr (list (VariablePtr * Z));
  remaining_lists_ : gmap VariablePtr (list Z);
  added_impacts_ : gset VariablePtr
}.

(** [initialize_production_in_cfg] on the two sets it updates. *)
Definition initialize_production_in_cfg
    (vt : gset VariablePtr * gset TerminalPtr) (production : ProductionPtr)
    : gset VariablePtr * gset TerminalPtr :=
  foldl (fun '(variables, terminals) cfg_object =>
           match to_terminal cfg_object with
           | Some terminal => (variables, {[ terminal ]} ∪ terminals)
           | None =>
               match to_variable cfg_object with
               | Some variable => ({[ variable ]} ∪ variables, terminals)
               | None => (variables, terminals)
               end
           end)
        ({[ Production.head_ (deref production) ]} ∪ vt.1, vt.2)
        (Production.body_ (deref production)).

(** The constructor. *)
Definition new (variables : gset VariablePtr) (terminals : gset TerminalPtr)
    (start_symbol : option VariablePtr) (productions : gset ProductionPtr) : t :=
  let variables0 :=
    match start_symbol with
    | Some s => {[ s ]} ∪ variables
    | None => variables
    end in
  let vt := foldl initialize_production_in_cfg (variables0, terminals)
                  (elements productions) in
  mk vt.1 vt.2 start_symbol productions None None None ∅ ∅ ∅.

(** The body of the loop over [productions_] in [get_generating_or_nullable],
    on the pair of [g_symbols] and the queue [to_process]. *)
Definition visit_production (st : gset CFGObjectPtr * list CFGObjectPtr)
    (production : ProductionPtr) : gset CFGObjectPtr * list CFGObjectPtr :=
  let head := of_variable (Production.head_ (deref production)) in
  if bool_decide (head ∈ st.1) then st
  else if forallb (fun symbol => bool_decide (symbol ∈ st.1))
                  (Production.body_ (deref production))
       then ({[ head ]} ∪ st.1, st.2 ++ [head])
       else st.

(** [while (!to_process.empty())]: [None] when the fuel is used up with the
    queue still not empty. *)
Fixpoint process (fuel : nat) (productions : list ProductionPtr)
    (g_symbols : gset CFGObjectPtr) (to_process : list CFGObjectPtr)
    : option (gset CFGObjectPtr) :=
  match to_process with
  | [] => Some g_symbols
  | current :: rest =>
      match fuel with
      | O => None
      | S fuel' =>
          let st := foldl visit_production (g_symbols, rest) productions in
          process fuel' productions st.1 st.2
      end
  end.

(** The seed: epsilon, and the terminals unless [nullable]. *)
Definition seed (epsilon : CFGObjectPtr) (g : t) (nullable : bool)
    : gset CFGObjectPtr * list CFGObjectPtr :=
  if nullable then ({[ epsilon ]}, [epsilon])
  else foldl (fun st terminal =>
                ({[ of_terminal terminal ]} ∪ st.1, st.2 ++ [of_terminal terminal]))
             ({[ epsilon ]}, [epsilon]) (elements (terminals_ g)).

(** [CFG::get_generating_or_nullable] of cfg.cpp (cfg.h also has a placeholder
    body for it, [return {}]; the definition of cfg.cpp is the one embedded).
    [heap] is the address of the [Epsilon] made by [std::make_shared].  Every
    pass of the [while] loop pops one object and every object is pushed when
    it joins [g_symbols], at most once per production, hence the fuel. *)
Definition get_generating_or_nullable (heap : N) (g : t) (nullable : bool)
    : option (gset CFGObjectPtr) :=
  let epsilon := mkPtr heap Epsilon_obj in
  let st := seed epsilon g nullable in
  let productions := elements (productions_ g) in
  g_symbols ← process (length st.2 + length productions) productions st.1 st.2;
  Some (g_symbols ∖ {[ epsilon ]}).

Definition set_generating_symbols (g : t) (s : option (gset CFGObjectPtr)) : t :=
  mk (variables_ g) (terminals_ g) (start_symbol_ g) (productions_ g)
     (normal_form_ g) s (nullable_symbols_ g)
     (impacts_ g) (remaining_lists_ g) (added_impacts_ g).

Definition set_nullable_symbols (g : t) (s : option (gset CFGObjectPtr)) : t :=
  mk (variables_ g) (terminals_ g) (start_symbol_ g) (productions_ g)
     (normal_form_ g) (generating_symbols_ g) s
     (impacts_ g) (remaining_lists_ g) (added_impacts_ g).

(** [get_generating_symbols]: the returned set and the grammar object after
    the call. *)
Definition get_generating_symbols (heap : N) (g : t)
    : option (gset CFGObjectPtr * t) :=
  match generating_symbols_ g with
  | Some s => Some (s, g)
  | None =>
      s ← get_generating_or_nullable heap g false;
      Some (s, set_generating_symbols g (Some s))
  end.

(** [get_nullable_symbols] *)
Definition get_nullable_symbols (heap : N) (g : t)
    : option (gset CFGObjectPtr * t) :=
  match nullable_symbols_ g with
  | Some s => Some (s, g)
  | None =>
      s ← get_generating_or_nullable heap g true;
      Some (s, set_nullable_symbols g (Some s))
  end.

(** [to_normal_form] is a placeholder: it returns a null pointer and writes
    no member. *)
Definition to_normal_form (g : t) : option (Ptr t) * t := (None, g).

End CFG.

End cfg.

(** ** Regular expressions *)

Module regular_expression.

(** *** regex_objects.h *)

Inductive RegexObject :=
| Symbol (value_ : string)
| Epsilon
| EmptyLanguage
| Concatenation (left_ right_ : RegexObject)
| Union (left_ right_ : RegexObject)
| KleeneStar (obj_ : RegexObject).

(** *** regex.h, regex.cpp *)

(** [RegexParsingException], with the message of [std::runtime_error]. *)
Record RegexParsingException := mkRegexParsingException { what : string }.

(** A call that either throws a [RegexParsingException] or returns. *)
Definition may_throw (A : Type) : Type := RegexParsingException + A.

Module Regex.

Record t := mk { root_ : RegexObject }.

(** [Regex::parse]: no path of the body throws. *)
Definition parse (regex : string) : may_throw RegexObject :=
  if bool_decide (regex = "") then inr Epsilon
  else inr (Symbol (String.substring 0 1 regex)).

(** [Regex::Regex(const std::string&) : root_(parse(regex))] *)
Definition new (regex : string) : may_throw t :=
  match parse regex with
  | inl e => inl e
  | inr root => inr (mk root)
  end.

Definition union_with (this other : t) : t := mk (Union (root_ this) (root_ other)).
Definition concatenate (this other : t) : t := mk (Concatenation (root_ this) (root_ other)).
Definition kleene_star (this : t) : t := mk (KleeneStar (root_ this)).

End Regex.

End regular_expression.

(** ** Notions used to state the properties *)

Module Spec.

Import finite_automaton.
Module TF := TransitionFunction.
Module NTF := NondeterministicTransitionFunction.
Module NFA := NondeterministicFiniteAutomaton.
Module DFA := DeterministicFiniteAutomaton.
Module ENFA := EpsilonNFA.

(** A sequence of calls of [TransitionFunction::add_transition]. *)
Definition add_transitions (tf : TF.t) (calls : list (StatePtr * SymbolPtr * StatePtr))
    : TF.t :=
  foldl (fun tf '(from_state, symbol, to_state) =>
           TF.add_transition tf from_state symbol to_state) tf calls.

(** The target of the last call of the sequence whose pair of state and symbol
    is equal, as the table compares keys, to [k]. *)
Fixpoint latest_target (calls : list (StatePtr * SymbolPtr * StatePtr))
    (k : string * string) : option StatePtr :=
  match calls with
  | [] => None
  | (from_state, symbol, to_state) :: rest =>
      match latest_target rest k with
      | Some q => Some q
      | None => if bool_decide (key from_state symbol = k) then Some to_state else None
      end
  end.

(** The DFA of the example: q0, q1, q2 and the symbols a, b are five objects;
    it is assembled with the builder operations. *)
Definition q0 : StatePtr := mkPtr 1 (mkState "q0").
Definition q1 : StatePtr := mkPtr 2 (mkState "q1").
Definition q2 : StatePtr := mkPtr 3 (mkState "q2").
Definition sym_a : SymbolPtr := mkPtr 4 (Symbol_obj "a").
Definition sym_b : SymbolPtr := mkPtr 5 (Symbol_obj "b").

Definition example_dfa : DFA.t :=
  let d := DFA.new ∅ ∅ None None ∅ in
  let d := DFA.set_start_state d q0 in
  let d := DFA.add_final_state d q2 in
  let d := DFA.add_transition d q0 sym_a q1 in
  let d := DFA.add_transition d q0 sym_b q0 in
  let d := DFA.add_transition d q1 sym_a q1 in
  let d := DFA.add_transition d q1 sym_b q2 in
  let d := DFA.add_transition d q2 sym_a q1 in
  DFA.add_transition d q2 sym_b q0.

(** The active states of a nondeterministic automaton in the words of the
    specification: the next active set is the union, over the currently active
    states, of the targets of their transitions on the symbol. *)
Definition union_of_targets (a : NFA.t) (active : StateSet) (symbol : SymbolPtr)
    : StateSet :=
  set_bind (fun state => NTF.get_next_states (NFA.transition_function_ a) state symbol)
           active.

Fixpoint active_states (a : NFA.t) (active : StateSet) (word : list SymbolPtr)
    : StateSet :=
  match word with
  | [] => active
  | symbol :: rest => active_states a (union_of_targets a active symbol) rest
  end.

(** The invariant of the data model: the start states, the final states and
    every state held by the transition table, as the source stored in a key or
    as a target, are members of the state set. *)
Definition NTF_within (states : StateSet) (tf : NTF.t) : Prop :=
  map_Forall (fun _ e => e.1.1 ∈ states ∧ e.2 ⊆ states) (NTF.transitions_ tf).

Definition TF_within (states : StateSet) (tf : TF.t) : Prop :=
  map_Forall (fun _ e => e.1.1 ∈ states ∧ e.2 ∈ states) (TF.transitions_ tf).

Definition NFA_invariant (a : NFA.t) : Prop :=
  NFA.start_states_ a ⊆ NFA.states_ a ∧
  NFA.final_states_ a ⊆ NFA.states_ a ∧
  NTF_within (NFA.states_ a) (NFA.transition_function_ a).

Definition DFA_invariant (d : DFA.t) : Prop :=
  NFA_invariant (DFA.base d) ∧
  TF_within (DFA.states_ d) (DFA.transition_function_dfa_ d).

#[global] Instance NFA_invariant_dec a : Decision (NFA_invariant a).
Proof. unfold NFA_invariant, NTF_within. apply _. Defined.

#[global] Instance DFA_invariant_dec d : Decision (DFA_invariant d).
Proof. unfold DFA_invariant, TF_within. apply _. Defined.

(** The builder operations of an epsilon-extended automaton, and those of a
    deterministic one. *)
Inductive builder_op :=
| Add_transition (from_state : StatePtr) (symbol : SymbolPtr) (to_state : StatePtr)
| Add_start_state (state : StatePtr)
| Add_final_state (state : StatePtr)
| Add_epsilon_transition (from_state to_state : StatePtr).

Definition apply_op (a : ENFA.t) (op : builder_op) : ENFA.t :=
  match op with
  | Add_transition f s t => ENFA.add_transition a f s t
  | Add_start_state q => ENFA.add_start_state a q
  | Add_final_state q => ENFA.add_final_state a q
  | Add_epsilon_transition f t => ENFA.add_epsilon_transition a f t
  end.

Definition build (a : ENFA.t) (ops : list builder_op) : ENFA.t :=
  foldl apply_op a ops.

Inductive dfa_builder_op :=
| Dfa_add_transition (from_state : StatePtr) (symbol : SymbolPtr) (to_state : StatePtr)
| Dfa_set_start_state (state : StatePtr)
| Dfa_add_start_state (state : StatePtr)
| Dfa_add_final_state (state : StatePtr).

Definition dfa_apply_op (d : DFA.t) (op : dfa_builder_op) : DFA.t :=
  match op with
  | Dfa_add_transition f s t => DFA.add_transition d f s t
  | Dfa_set_start_state q => DFA.set_start_state d q
  | Dfa_add_start_state q => DFA.add_start_state d q
  | Dfa_add_final_state q => DFA.add_final_state d q
  end.

Definition dfa_build (d : DFA.t) (ops : list dfa_builder_op) : DFA.t :=
  foldl dfa_apply_op d ops.

(** A word over the alphabet of a deterministic automaton: each of its
    symbols carries the label of a member of [input_symbols_]. *)
Definition over_alphabet (d : DFA.t) (word : list SymbolPtr) : Prop :=
  Forall (fun symbol =>
            set_Exists (fun s => symbol_value (deref s) = symbol_value (deref symbol))
                       (DFA.input_symbols_ d))
         word.

#[global] Instance over_alphabet_dec d word : Decision (over_alphabet d word).
Proof. unfold over_alphabet. apply _. Defined.

(** The fixpoint that the nullable and generating analyses are to compute:
    the seed is epsilon alone, or epsilon and the terminals of the grammar; a
    set is closed when it holds the head of every production whose whole body
    it holds; the least fixpoint is the least closed set that includes the
    seed. *)
Definition seeds (epsilon : cfg.CFGObjectPtr) (g : cfg.CFG.t) (nullable : bool)
    : gset cfg.CFGObjectPtr :=
  if nullable then {[ epsilon ]}
  else {[ epsilon ]} ∪ set_map cfg.of_terminal (cfg.CFG.terminals_ g).

Definition closed (g : cfg.CFG.t) (X : gset cfg.CFGObjectPtr) : Prop :=
  ∀ production, production ∈ cfg.CFG.productions_ g →
    (∀ symbol, symbol ∈ cfg.Production.body_ (deref production) → symbol ∈ X) →
    cfg.of_variable (cfg.Production.head_ (deref production)) ∈ X.

Definition least_fixpoint (g : cfg.CFG.t) (seed X : gset cfg.CFGObjectPtr) : Prop :=
  seed ⊆ X ∧ closed g X ∧ ∀ Y, seed ⊆ Y → closed g Y → X ⊆ Y.

(** The productions of a list whose head is not yet in the set: each of them
    can push at most one more object on the queue. *)
Definition pending (productions : list cfg.ProductionPtr)
    (g_symbols : gset cfg.CFGObjectPtr) : nat :=
  length (filter (fun production =>
                    cfg.of_variable (cfg.Production.head_ (deref production)) ∉ g_symbols)
                 productions).

(** The set stays between the seed and every closed set that includes the
    seed, and holds nothing but seeds and heads of productions. *)
Definition sound (g : cfg.CFG.t) (seed X : gset cfg.CFGObjectPtr) : Prop :=
  seed ⊆ X ∧
  (∀ Y, seed ⊆ Y → closed g Y → X ⊆ Y) ∧
  (∀ x, x ∈ X → x ∈ seed ∨
     ∃ production, production ∈ cfg.CFG.productions_ g ∧
                   x = cfg.of_variable (cfg.Production.head_ (deref production))).

(** The members of a grammar object other than the two caches of the
    analyses. *)
Definition same_grammar (g g' : cfg.CFG.t) : Prop :=
  cfg.CFG.variables_ g' = cfg.CFG.variables_ g ∧
  cfg.CFG.terminals_ g' = cfg.CFG.terminals_ g ∧
  cfg.CFG.start_symbol_ g' = cfg.CFG.start_symbol_ g ∧
  cfg.CFG.productions_ g' = cfg.CFG.productions_ g ∧
  cfg.CFG.normal_form_ g' = cfg.CFG.normal_form_ g ∧
  cfg.CFG.impacts_ g' = cfg.CFG.impacts_ g ∧
  cfg.CFG.remaining_lists_ g' = cfg.CFG.remaining_lists_ g ∧
  cfg.CFG.added_impacts_ g' = cfg.CFG.added_impacts_ g.

(** A grammar to run the analyses on: S -> A B, A -> epsilon, B -> b, C -> C.
    Each variable and terminal is one object, shared by the productions that
    mention it; the epsilon of the second production is erased by the
    constructor of [Production]. *)
Definition var_S : cfg.VariablePtr := mkPtr 1 (cfg.mkVariable "S").
Definition var_A : cfg.VariablePtr := mkPtr 2 (cfg.mkVariable "A").
Definition var_B : cfg.VariablePtr := mkPtr 3 (cfg.mkVariable "B").
Definition var_C : cfg.VariablePtr := mkPtr 4 (cfg.mkVariable "C").
Definition ter_b : cfg.TerminalPtr := mkPtr 5 (cfg.mkTerminal "b").
Definition eps_6 : cfg.CFGObjectPtr := mkPtr 6 cfg.Epsilon_obj.

Definition example_cfg : cfg.CFG.t :=
  cfg.CFG.new {[ var_S; var_A; var_B; var_C ]} {[ ter_b ]} (Some var_S)
    {[ mkPtr 10 (cfg.Production.new var_S [cfg.of_variable var_A; cfg.of_variable var_B] true);
       mkPtr 11 (cfg.Production.new var_A [eps_6] true);
       mkPtr 12 (cfg.Production.new var_B [cfg.of_terminal ter_b] true);
       mkPtr 13 (cfg.Production.new var_C [cfg.of_variable var_C] true) ]}.

(** A sequence of calls of [NondeterministicTransitionFunction::add_transition]. *)
Definition NTF_add_transitions (tf : NTF.t)
    (calls : list (StatePtr * SymbolPtr * StatePtr)) : NTF.t :=
  foldl (fun tf '(from_state, symbol, to_state) =>
           NTF.add_transition tf from_state symbol to_state) tf calls.

(** Every entry of the table is filed under the key of the pointers it
    stores. *)
Definition TF_keyed (tf : TF.t) : Prop :=
  map_Forall (fun k e => key e.1.1 e.1.2 = k) (TF.transitions_ tf).

Definition NTF_keyed (tf : NTF.t) : Prop :=
  map_Forall (fun k e => key e.1.1 e.1.2 = k) (NTF.transitions_ tf).

(** The labels of a word. *)
Definition labels (word : list SymbolPtr) : list string :=
  (fun symbol => symbol_value (deref symbol)) <$> word.

(** The label is the label of a member of the alphabet. *)
Definition declared (input_symbols : SymbolSet) (label : string) : Prop :=
  set_Exists (fun s => symbol_value (deref s) = label) input_symbols.

(** Every symbol under which the table files a transition carries the label of
    a member of the alphabet. *)
Definition TF_symbols_declared (input_symbols : SymbolSet) (tf : TF.t) : Prop :=
  map_Forall (fun k _ => declared input_symbols k.2) (TF.transitions_ tf).

Definition NTF_symbols_declared (input_symbols : SymbolSet) (tf : NTF.t) : Prop :=
  map_Forall (fun k _ => declared input_symbols k.2) (NTF.transitions_ tf).

Definition nfa_over_alphabet (a : NFA.t) (word : list SymbolPtr) : Prop :=
  Forall (fun symbol => declared (NFA.input_symbols_ a) (symbol_value (deref symbol)))
         word.

#[global] Instance TF_symbols_declared_dec syms tf : Decision (TF_symbols_declared syms tf).
Proof. unfold TF_symbols_declared, declared. apply _. Defined.

#[global] Instance NTF_symbols_declared_dec syms tf :
  Decision (NTF_symbols_declared syms tf).
Proof. unfold NTF_symbols_declared, declared. apply _. Defined.

#[global] Instance nfa_over_alphabet_dec a word : Decision (nfa_over_alphabet a word).
Proof. unfold nfa_over_alphabet, declared. apply _. Defined.

(** The builder operations that leave the transition table alone or put the
    symbol of the transition they add into [input_symbols_]: all but
    [add_epsilon_transition]. *)
Definition declares_symbol (op : builder_op) : bool :=
  match op with
  | Add_epsilon_transition _ _ => false
  | _ => true
  end.

(** The builder operations that [DeterministicFiniteAutomaton] declares itself
    or that do not touch the start states: all but the inherited
    [add_start_state]. *)
Definition keeps_one_start (op : dfa_builder_op) : bool :=
  match op with
  | Dfa_add_start_state _ => false
  | _ => true
  end.

(** The labels of the objects of a body. *)
Definition body_labels (body : list cfg.CFGObjectPtr) : list string :=
  (fun obj => cfg.value (deref obj)) <$> body.

(** The objects of a body are all of class [Epsilon]; all of class
    [Terminal]. *)
Definition all_epsilon (body : list cfg.CFGObjectPtr) : Prop :=
  Forall (fun obj => cfg.is_Epsilon (deref obj) = true) body.

Definition all_terminals (body : list cfg.CFGObjectPtr) : Prop :=
  Forall (fun obj => is_Some (cfg.to_terminal obj)) body.

(** Every production of the grammar has in its body an object other than
    [epsilon]. *)
Definition no_empty_body (epsilon : cfg.CFGObjectPtr) (g : cfg.CFG.t) : Prop :=
  set_Forall (fun production =>
                Exists (fun obj => obj ≠ epsilon)
                       (cfg.Production.body_ (deref production)))
             (cfg.CFG.productions_ g).

#[global] Instance no_empty_body_dec epsilon g : Decision (no_empty_body epsilon g).
Proof. unfold no_empty_body. apply _. Defined.

(** No transition of the table leaves a state labelled "sink", the label that
    [make_complete] gives to the state it adds. *)
Definition no_sink_source (tf : TF.t) : Prop :=
  map_Forall (fun k _ => k.1 ≠ "sink") (TF.transitions_ tf).

#[global] Instance no_sink_source_dec tf : Decision (no_sink_source tf).
Proof. unfold no_sink_source. apply _. Defined.

(** [tf'] has the transitions of [tf] that do not leave a state labelled
    "sink", and any other transition of [tf'] leads to [sink]. *)
Definition extends_with_sink (sink : StatePtr) (tf tf' : TF.t) : Prop :=
  ∀ q x,
    (∀ t, TF.get_next_state tf q x = Some t → state_value (deref q) ≠ "sink" →
          TF.get_next_state tf' q x = Some t) ∧
    (∀ t, TF.get_next_state tf' q x = Some t →
          TF.get_next_state tf q x = Some t ∨ t = sink).

(** The inner loop of [fill_missing], for one state. *)
Definition fill_state (sink q : StatePtr) (symbols : list SymbolPtr) (tf : TF.t) : TF.t :=
  foldl (fun tf symbol =>
           match TF.get_next_state tf q symbol with
           | Some _ => tf
           | None => TF.add_transition tf q symbol sink
           end) tf symbols.

(** An automaton with the transitions q0 -a-> q1 and q1 -b-> q1 and the final
    state q1, which [make_complete] has to complete. *)
Definition partial_dfa : DFA.t :=
  let d := DFA.new ∅ ∅ None None ∅ in
  let d := DFA.set_start_state d q0 in
  let d := DFA.add_final_state d q1 in
  let d := DFA.add_transition d q0 sym_a q1 in
  DFA.add_transition d q1 sym_b q1.

End Spec.

(** ** Properties *)

Section transition_function.

Import finite_automaton Spec.

Lemma get_next_state_add_transition tf from_state symbol to_state f s :
  TF.get_next_state (TF.add_transition tf from_state symbol to_state) f s =
  if bool_decide (key from_state symbol = key f s) then Some to_state
  else TF.get_next_state tf f s.
Proof.
  unfold TF.get_next_state, TF.add_transition.
  destruct (TF.transitions_ tf !! key from_state symbol) as [[[f0 s0] t0]|] eqn:E;
    cbn [TF.transitions_]; rewrite lookup_insert; case_decide;
    by rewrite ?bool_decide_eq_true_2, ?bool_decide_eq_false_2 by done.
Qed.

(** C10. [TransitionFunction::add_transition] never fails and overwrites: after
    any sequence of calls, from any table, [get_next_state] on a pair of state
    and symbol returns the target of the most recent call for an equal pair,
    and what the table held before when there was no such call; the result is
    a single state or null. *)
Theorem add_transition_overwrites_latest
    (tf : TF.t) (calls : list (StatePtr * SymbolPtr * StatePtr))
    (from_state : StatePtr) (symbol : SymbolPtr) :
  TF.get_next_state (add_transitions tf calls) from_state symbol =
  match latest_target calls (key from_state symbol) with
  | Some to_state => Some to_state
  | None => TF.get_next_state tf from_state symbol
  end.
Proof.
  revert tf. induction calls as [|[[f s] t] rest IH]; intros tf; [done|].
  cbn [add_transitions foldl latest_target]. fold (add_transitions
    (TF.add_transition tf f s t) rest). rewrite IH.
  destruct (latest_target rest (key from_state symbol)); [done|].
  rewrite get_next_state_add_transition.
  by destruct (bool_decide (key f s = key from_state symbol)).
Qed.

End transition_function.

Section concrete_dfa.

Import finite_automaton Spec.

(** C3. The DFA with states q0, q1, q2, start q0, final q2 and the six
    transitions of the example rejects the empty word and ["b"], and accepts
    ["a","b"] and ["b","a","b"], wherever the symbols of the word are
    allocated. *)
Theorem example_dfa_accepts (heap : N) :
  DFA.accepts_strings heap example_dfa [] = false ∧
  DFA.accepts_strings heap example_dfa ["a"; "b"] = true ∧
  DFA.accepts_strings heap example_dfa ["b"; "a"; "b"] = true ∧
  DFA.accepts_strings heap example_dfa ["b"] = false.
Proof. repeat split; vm_compute; reflexivity. Qed.

End concrete_dfa.

Section placeholders.

Import finite_automaton Spec.

(** C1. [EpsilonNFA::to_deterministic] returns a null pointer for every
    automaton, so there is no deterministic automaton whose [accepts] could be
    compared with that of the automaton: for no automaton and no word does the
    equation [N.accepts(w) == N.to_deterministic().accepts(w)] hold. *)
Theorem to_deterministic_returns_null (a : ENFA.t) (word : list SymbolPtr) :
  ENFA.to_deterministic a = None ∧
  ¬ ∃ d, ENFA.to_deterministic a = Some d ∧ DFA.accepts d word = ENFA.accepts a word.
Proof. split; [done|]. by intros (d & Hd & _). Qed.

Import regular_expression.

(** C9. [Regex::parse] throws on no input: the empty string gives [Epsilon]
    and any other string the symbol of its first character, also when the
    string has an unmatched parenthesis, an operator in operand position or a
    trailing operator. *)
Theorem parse_never_throws :
  (∀ regex, ∃ root, Regex.parse regex = inr root) ∧
  Regex.parse "(a" = inr (Symbol "(") ∧
  Regex.parse "a)" = inr (Symbol "a") ∧
  Regex.parse "+a" = inr (Symbol "+") ∧
  Regex.parse "*" = inr (Symbol "*") ∧
  Regex.parse "a+" = inr (Symbol "a") ∧
  Regex.new "(a" = inr (Regex.mk (Symbol "(")).
Proof.
  split; [|by repeat split].
  intros regex. unfold Regex.parse. case_bool_decide; eauto.
Qed.

End placeholders.

Section epsilon_equality.

Import finite_automaton Spec.

(** C6. What the equality operators return on epsilon.  The operators declared
    in the two [Epsilon] classes make an epsilon equal to every epsilon and
    different from every object of another class.  [Symbol::operator==] and
    [CFGObject::operator==], which are selected when the left operand has the
    static type of the base class, compare the labels: a plain symbol, a
    terminal or a variable with the label of epsilon is equal to epsilon, and
    the transition tables, which compare through [Symbol::operator==], file an
    epsilon transition and a transition on such a symbol under one key. *)
Theorem epsilon_equal_to_symbol_with_same_label :
  (∀ e other, Epsilon_eq_Epsilon e other = true) ∧
  (∀ e, Epsilon_eq_Symbol e Epsilon_obj = true) ∧
  (∀ e v, Epsilon_eq_Symbol e (Symbol_obj v) = false) ∧
  (∀ e, cfg.Epsilon_eq_CFGObject e cfg.Epsilon_obj = true) ∧
  (∀ e o, o ≠ cfg.Epsilon_obj → cfg.Epsilon_eq_CFGObject e o = false) ∧
  Symbol_eq (Symbol_obj "ε") Epsilon_obj = true ∧
  Symbol_eq Epsilon_obj (Symbol_obj "ε") = true ∧
  Symbol_neq Epsilon_obj (Symbol_obj "ε") = false ∧
  cfg.CFGObject_eq (cfg.Terminal_obj (cfg.mkTerminal "ε")) cfg.Epsilon_obj = true ∧
  cfg.CFGObject_eq (cfg.Variable_obj (cfg.mkVariable "ε")) cfg.Epsilon_obj = true ∧
  cfg.CFGObject_eq cfg.Epsilon_obj (cfg.Terminal_obj (cfg.mkTerminal "ε")) = true ∧
  (∀ q q' a b,
     NTF.get_next_states
       (NTF.add_transition NTF.empty q (mkPtr a Epsilon_obj) q')
       q (mkPtr b (Symbol_obj "ε")) = {[ q' ]}).
Proof.
  repeat split; try done.
  - by intros e [].
  - intros q q' a b. unfold NTF.get_next_states, NTF.add_transition.
    cbn [NTF.transitions_ NTF.empty]. rewrite lookup_empty.
    cbn [NTF.transitions_].
    change (key q (mkPtr b (Symbol_obj "ε"))) with (key q (mkPtr a Epsilon_obj)).
    by rewrite lookup_insert_eq.
Qed.

End epsilon_equality.

Section nondeterministic_acceptance.

Import finite_automaton Spec.

Lemma elem_of_foldl_union {A} (f : A → StateSet) (l : list A) (acc : StateSet) q :
  q ∈ foldl (fun next x => f x ∪ next) acc l ↔ q ∈ acc ∨ ∃ x, x ∈ l ∧ q ∈ f x.
Proof.
  revert acc. induction l as [|x l IH]; intros acc; cbn [foldl].
  - split; [by left|]. intros [?|(x & Hx & _)]; [done|]. by apply elem_of_nil in Hx.
  - rewrite IH, elem_of_union. split.
    + intros [[?|?]|(y & ? & ?)]; [right; exists x|by left|right; exists y];
        split; try done; by constructor.
    + intros [?|(y & Hy & ?)]; [by left; right|].
      apply elem_of_cons in Hy as [->|?]; [by left; left|right; by exists y].
Qed.

Lemma elem_of_next_states (a : NFA.t) (active : StateSet) symbol q :
  q ∈ NFA.next_states a active symbol ↔
  ∃ p, p ∈ active ∧ q ∈ NTF.get_next_states (NFA.transition_function_ a) p symbol.
Proof.
  unfold NFA.next_states. rewrite elem_of_foldl_union. split.
  - intros [H|(p & Hp & ?)]; [by apply not_elem_of_empty in H|].
    exists p. by rewrite <- elem_of_elements.
  - intros (p & Hp & ?). right. exists p. by rewrite elem_of_elements.
Qed.

Lemma next_states_union_of_targets (a : NFA.t) (active : StateSet) symbol :
  NFA.next_states a active symbol = union_of_targets a active symbol.
Proof.
  apply set_eq. intros q. unfold union_of_targets.
  rewrite elem_of_next_states, elem_of_set_bind. naive_solver.
Qed.

Lemma foldl_next_states_active (a : NFA.t) (active : StateSet) word :
  foldl (NFA.next_states a) active word = active_states a active word.
Proof.
  revert active. induction word as [|symbol rest IH]; intros active; [done|].
  cbn [foldl active_states]. by rewrite next_states_union_of_targets, IH.
Qed.

Lemma existsb_final (final : StateSet) (l : list StatePtr) :
  existsb (fun state => bool_decide (state ∈ final)) l = true ↔
  ∃ q, q ∈ l ∧ q ∈ final.
Proof.
  rewrite existsb_exists. split; intros (q & Hq & Hf); exists q.
  - by rewrite list_elem_of_In, <- (bool_decide_eq_true (q ∈ final)).
  - by rewrite <- list_elem_of_In, bool_decide_eq_true.
Qed.

(** C2. [NondeterministicFiniteAutomaton::accepts] simulates the set of active
    states: the loop starts from the start states, one round replaces the
    active set by the union of the transition targets of the active states,
    and the word is accepted exactly when the set reached meets the final
    states; the empty word is accepted exactly when a start state is final. *)
Theorem nfa_accepts_active_states (a : NFA.t) :
  (∀ active symbol q,
      q ∈ NFA.next_states a active symbol ↔
      ∃ p, p ∈ active ∧
           q ∈ NTF.get_next_states (NFA.transition_function_ a) p symbol) ∧
  (∀ word, NFA.current_states a word = active_states a (NFA.start_states_ a) word) ∧
  (∀ word,
      NFA.accepts a word = true ↔
      ∃ q, q ∈ active_states a (NFA.start_states_ a) word ∧ q ∈ NFA.final_states_ a) ∧
  (NFA.accepts a [] = true ↔
   ∃ q, q ∈ NFA.start_states_ a ∧ q ∈ NFA.final_states_ a) ∧
  NFA.accepts_epsilon a = NFA.accepts a [].
Proof.
  split; [apply elem_of_next_states|].
  split; [intros; apply foldl_next_states_active|].
  assert (∀ word, NFA.accepts a word = true ↔
     ∃ q, q ∈ active_states a (NFA.start_states_ a) word ∧ q ∈ NFA.final_states_ a)
    as Hacc.
  { intros word. unfold NFA.accepts, NFA.current_states.
    rewrite existsb_final, foldl_next_states_active.
    by setoid_rewrite elem_of_elements. }
  split; [done|]. split; [apply (Hacc [])|done].
Qed.

End nondeterministic_acceptance.

Section builder_invariant.

Import finite_automaton Spec.

Lemma elem_of_NTF_get_transitions (tf : NTF.t) f s t :
  (f, s, t) ∈ NTF.get_transitions tf ↔
  ∃ k to_states, NTF.transitions_ tf !! k = Some (f, s, to_states) ∧ t ∈ to_states.
Proof.
  unfold NTF.get_transitions. rewrite list_elem_of_bind. split.
  - intros ([[f0 s0] S] & Hin & Hm). apply list_elem_of_fmap in Hin as (t0 & Heq & Ht0).
    simplify_eq. apply elem_of_elements in Ht0.
    apply list_elem_of_fmap in Hm as ([k v] & Hv & Hk). cbn in Hv. subst v.
    apply elem_of_map_to_list in Hk. by exists k, S.
  - intros (k & S & Hk & Ht). exists (f, s, S). split.
    + apply list_elem_of_fmap. exists t. by rewrite elem_of_elements.
    + apply list_elem_of_fmap. exists (k, (f, s, S)). split; [done|].
      by apply elem_of_map_to_list.
Qed.

Lemma elem_of_TF_get_transitions (tf : TF.t) tr :
  tr ∈ TF.get_transitions tf ↔ ∃ k, TF.transitions_ tf !! k = Some tr.
Proof.
  unfold TF.get_transitions. rewrite list_elem_of_fmap. split.
  - intros ([k v] & -> & Hk). apply elem_of_map_to_list in Hk. by exists k.
  - intros (k & Hk). exists (k, tr). split; [done|]. by apply elem_of_map_to_list.
Qed.

(** The invariant covers every transition that [get_transitions] lists. *)
Lemma NTF_within_get_transitions states tf f s t :
  NTF_within states tf → (f, s, t) ∈ NTF.get_transitions tf →
  f ∈ states ∧ t ∈ states.
Proof.
  intros H (k & S & Hk & Ht)%elem_of_NTF_get_transitions.
  destruct (H k _ Hk) as [? HS]. split; [done|by apply HS].
Qed.

Lemma TF_within_get_transitions states tf f s t :
  TF_within states tf → (f, s, t) ∈ TF.get_transitions tf →
  f ∈ states ∧ t ∈ states.
Proof. intros H (k & Hk)%elem_of_TF_get_transitions. apply (H k _ Hk). Qed.

Lemma NTF_within_mono states states' tf :
  states ⊆ states' → NTF_within states tf → NTF_within states' tf.
Proof.
  intros Hsub H k e Hk. destruct (H k e Hk) as [? ?].
  split; [by apply Hsub|by etrans].
Qed.

Lemma TF_within_mono states states' tf :
  states ⊆ states' → TF_within states tf → TF_within states' tf.
Proof.
  intros Hsub H k e Hk. destruct (H k e Hk) as [? ?]. split; by apply Hsub.
Qed.

Lemma NTF_add_transition_within (tf : NTF.t) states f s t :
  NTF_within states tf →
  NTF_within ({[ t ]} ∪ ({[ f ]} ∪ states)) (NTF.add_transition tf f s t).
Proof.
  intros H. unfold NTF_within, NTF.add_transition.
  destruct (NTF.transitions_ tf !! key f s) as [[[f0 s0] S0]|] eqn:E;
    cbn [NTF.transitions_]; apply map_Forall_insert_2;
    try (eapply NTF_within_mono; [|exact H]; set_solver).
  - destruct (H _ _ E) as [? ?]. cbn in *. split; set_solver.
  - cbn. split; set_solver.
Qed.

Lemma TF_add_transition_within (tf : TF.t) states f s t :
  TF_within states tf →
  TF_within ({[ t ]} ∪ ({[ f ]} ∪ states)) (TF.add_transition tf f s t).
Proof.
  intros H. unfold TF_within, TF.add_transition.
  destruct (TF.transitions_ tf !! key f s) as [[[f0 s0] t0]|] eqn:E;
    cbn [TF.transitions_]; apply map_Forall_insert_2;
    try (eapply TF_within_mono; [|exact H]; set_solver).
  - destruct (H _ _ E) as [? ?]. cbn in *. split; set_solver.
  - cbn. split; set_solver.
Qed.

Lemma NFA_add_transition_invariant a f s t :
  NFA_invariant a → NFA_invariant (NFA.add_transition a f s t).
Proof.
  intros (Hs & Hf & Ht). split; [|split]; cbn.
  - set_solver.
  - set_solver.
  - by apply NTF_add_transition_within.
Qed.

Lemma NFA_add_start_state_invariant a q :
  NFA_invariant a → NFA_invariant (NFA.add_start_state a q).
Proof.
  intros (Hs & Hf & Ht). split; [|split]; cbn; [set_solver..|].
  eapply NTF_within_mono; [|exact Ht]. set_solver.
Qed.

Lemma NFA_add_final_state_invariant a q :
  NFA_invariant a → NFA_invariant (NFA.add_final_state a q).
Proof.
  intros (Hs & Hf & Ht). split; [|split]; cbn; [set_solver..|].
  eapply NTF_within_mono; [|exact Ht]. set_solver.
Qed.

Lemma apply_op_invariant a op :
  NFA_invariant (ENFA.base a) → NFA_invariant (ENFA.base (apply_op a op)).
Proof.
  destruct op as [f s t|q|q|f t]; cbn.
  - apply NFA_add_transition_invariant.
  - apply NFA_add_start_state_invariant.
  - apply NFA_add_final_state_invariant.
  - apply (NFA_add_transition_invariant (ENFA.base a) f (ENFA.epsilon_ a) t).
Qed.

Lemma dfa_apply_op_invariant d op :
  DFA_invariant d → DFA_invariant (dfa_apply_op d op).
Proof.
  intros [(Hs & Hf & Ht) Hd]. destruct op as [f s t|q|q|q]; cbn.
  - split; [split; [|split]; cbn; [set_solver..|]|].
    + eapply NTF_within_mono; [|exact Ht]. set_solver.
    + by apply TF_add_transition_within.
  - split; [split; [|split]; cbn; [set_solver..|]|].
    + eapply NTF_within_mono; [|exact Ht]. set_solver.
    + eapply TF_within_mono; [|exact Hd]. cbn. set_solver.
  - split; [by apply NFA_add_start_state_invariant|].
    eapply TF_within_mono; [|exact Hd]. cbn. set_solver.
  - split; [by apply NFA_add_final_state_invariant|].
    eapply TF_within_mono; [|exact Hd]. cbn. set_solver.
Qed.

(** The automata made by the default constructors satisfy the invariant. *)
Lemma default_automata_invariant heap :
  NFA_invariant (NFA.new ∅ ∅ None ∅ ∅) ∧
  NFA_invariant (ENFA.base (ENFA.new heap ∅ ∅ None ∅ ∅)) ∧
  DFA_invariant (DFA.new ∅ ∅ None None ∅).
Proof. repeat (split; [|split]); try done; apply map_Forall_empty. Qed.

Lemma build_invariant a ops :
  NFA_invariant (ENFA.base a) → NFA_invariant (ENFA.base (build a ops)).
Proof.
  revert a. induction ops as [|op ops IH]; intros a H; [done|].
  apply IH. by apply apply_op_invariant.
Qed.

Lemma dfa_build_invariant d ops :
  DFA_invariant d → DFA_invariant (dfa_build d ops).
Proof.
  revert d. induction ops as [|op ops IH]; intros d H; [done|].
  apply IH. by apply dfa_apply_op_invariant.
Qed.

(** C8. Every builder operation puts the states it is given into the state
    set: after any sequence of [add_transition], [add_start_state],
    [add_final_state] and [add_epsilon_transition] on an epsilon-extended
    automaton of the data model, and after any sequence of [add_transition],
    [set_start_state], [add_start_state] and [add_final_state] on a
    deterministic one, every state of the transition table, of the start set
    and of the final set is a member of the state set. *)
Theorem builder_operations_keep_invariant
    (a : ENFA.t) (ops : list builder_op) (d : DFA.t) (dfa_ops : list dfa_builder_op) :
  NFA_invariant (ENFA.base a) →
  DFA_invariant d →
  NFA_invariant (ENFA.base (build a ops)) ∧ DFA_invariant (dfa_build d dfa_ops).
Proof. intros Ha Hd. split; [by apply build_invariant|by apply dfa_build_invariant]. Qed.

Lemma builder_operations_keep_invariant_witness :
  let a := ENFA.new 9 ∅ ∅ None ∅ ∅ in
  let ops := [Add_start_state q0; Add_transition q0 sym_a q1;
              Add_epsilon_transition q1 q2; Add_final_state q2;
              Add_transition q0 sym_a q2] in
  let d := DFA.new ∅ ∅ None None ∅ in
  let dfa_ops := [Dfa_set_start_state q1; Dfa_add_transition q0 sym_a q1;
                  Dfa_add_transition q0 sym_a q2; Dfa_set_start_state q0;
                  Dfa_add_final_state q2] in
  NFA_invariant (ENFA.base a) ∧ DFA_invariant d ∧
  NFA_invariant (ENFA.base (build a ops)) ∧ DFA_invariant (dfa_build d dfa_ops).
Proof.
  intros a ops d dfa_ops.
  assert (NFA_invariant (ENFA.base a)) as Ha
    by (apply (bool_decide_unpack _); vm_compute; exact I).
  assert (DFA_invariant d) as Hd
    by (apply (bool_decide_unpack _); vm_compute; exact I).
  split; [exact Ha|]. split; [exact Hd|].
  exact (builder_operations_keep_invariant a ops d dfa_ops Ha Hd).
Defined.

End builder_invariant.

Section complement.

Import finite_automaton Spec.

Lemma mark_non_final_frame final result states :
  DFA.transition_function_dfa_ (DFA.mark_non_final final result states) =
    DFA.transition_function_dfa_ result ∧
  DFA.start_states_ (DFA.mark_non_final final result states) = DFA.start_states_ result ∧
  DFA.input_symbols_ (DFA.mark_non_final final result states) = DFA.input_symbols_ result.
Proof.
  revert result. induction states as [|q states IH]; intros result; [done|].
  unfold DFA.mark_non_final in *. cbn [foldl].
  case_bool_decide; [apply IH|].
  destruct (IH (DFA.add_final_state result q)) as (H1 & H2 & H3).
  by rewrite H1, H2, H3.
Qed.

Lemma mark_non_final_final_states final result states q :
  q ∈ DFA.final_states_ (DFA.mark_non_final final result states) ↔
  q ∈ DFA.final_states_ result ∨ (q ∈ states ∧ q ∉ final).
Proof.
  revert result. induction states as [|p states IH]; intros result.
  - cbn. split; [by left|]. intros [?|[H _]]; [done|]. by apply elem_of_nil in H.
  - unfold DFA.mark_non_final in *. cbn [foldl].
    rewrite elem_of_cons. case_bool_decide; rewrite IH.
    + naive_solver.
    + unfold DFA.add_final_state, DFA.final_states_; cbn.
      rewrite elem_of_union, elem_of_singleton. naive_solver.
Qed.

Lemma mark_non_final_states final result states q :
  q ∈ DFA.states_ (DFA.mark_non_final final result states) ↔
  q ∈ DFA.states_ result ∨ (q ∈ states ∧ q ∉ final).
Proof.
  revert result. induction states as [|p states IH]; intros result.
  - cbn. split; [by left|]. intros [?|[H _]]; [done|]. by apply elem_of_nil in H.
  - unfold DFA.mark_non_final in *. cbn [foldl].
    rewrite elem_of_cons. case_bool_decide; rewrite IH.
    + naive_solver.
    + unfold DFA.add_final_state, DFA.states_; cbn.
      rewrite elem_of_union, elem_of_singleton. naive_solver.
Qed.

Lemma is_complete_spec d :
  DFA.is_complete d = true ↔
  ∀ state symbol, state ∈ DFA.states_ d → symbol ∈ DFA.input_symbols_ d →
    is_Some (TF.get_next_state (DFA.transition_function_dfa_ d) state symbol).
Proof.
  unfold DFA.is_complete. rewrite forallb_forall. split.
  - intros H state symbol Hq Hs.
    apply elem_of_elements, list_elem_of_In, H in Hq.
    rewrite forallb_forall in Hq.
    apply elem_of_elements, list_elem_of_In, Hq in Hs.
    by apply bool_decide_eq_true in Hs.
  - intros H state Hq. apply forallb_forall. intros symbol Hs.
    apply bool_decide_eq_true, H; by apply elem_of_elements, list_elem_of_In.
Qed.

Lemma get_next_state_within states tf q symbol q' :
  TF_within states tf → TF.get_next_state tf q symbol = Some q' → q' ∈ states.
Proof.
  unfold TF.get_next_state. intros H Hq.
  destruct (TF.transitions_ tf !! key q symbol) as [[[f0 s0] t0]|] eqn:E; [|done].
  simplify_eq. by destruct (H _ _ E).
Qed.

(** On a complete automaton that satisfies the invariant, the loop of
    [accepts] never meets a missing transition and stays in the state set. *)
Lemma run_complete d word q :
  TF_within (DFA.states_ d) (DFA.transition_function_dfa_ d) →
  DFA.is_complete d = true → over_alphabet d word → q ∈ DFA.states_ d →
  ∃ q', DFA.run (DFA.transition_function_dfa_ d) q word = Some q' ∧ q' ∈ DFA.states_ d.
Proof.
  intros Hin Hc Hw. pose proof (proj1 (is_complete_spec d) Hc) as Hc'.
  clear Hc. rename Hc' into Hc. revert q.
  induction Hw as [|symbol word (s & Hs & Hv) Hw IH]; intros q Hq; [by exists q|].
  cbn [DFA.run]. destruct (Hc q s Hq Hs) as [q' Hq'].
  assert (TF.get_next_state (DFA.transition_function_dfa_ d) q symbol = Some q') as ->.
  { rewrite <- Hq'. unfold TF.get_next_state, key. by rewrite Hv. }
  apply IH. by eapply get_next_state_within.
Qed.

Lemma start_state_singleton d q0 :
  DFA.start_states_ d = {[ q0 ]} → DFA.start_state d = Some q0.
Proof. unfold DFA.start_state. intros ->. by rewrite elements_singleton. Qed.

Lemma make_complete_complete heap d :
  DFA.is_complete d = true → DFA.make_complete heap d = d.
Proof. unfold DFA.make_complete. by intros ->. Qed.

Lemma complement_unfold heap d :
  DFA.complement heap d =
  DFA.mark_non_final (DFA.final_states_ (DFA.make_complete heap d))
    (DFA.new (DFA.states_ (DFA.make_complete heap d))
             (DFA.input_symbols_ (DFA.make_complete heap d))
             (Some (DFA.transition_function_dfa_ (DFA.make_complete heap d)))
             (DFA.start_state (DFA.make_complete heap d)) ∅)
    (elements (DFA.states_ (DFA.make_complete heap d))).
Proof. done. Qed.

(** C4. For a complete deterministic automaton of the data model (the
    invariant holds and there is one start state) and a word over its
    alphabet, exactly one of the automaton and its complement accepts the
    word; the complement has the states, the alphabet, the transition
    function and the start state of the (completed) input, which is the input
    itself, and its final states are the states that are not final in the
    input. *)
Theorem complement_accepts_exactly_one
    (heap : N) (d : DFA.t) (q0 : StatePtr) (word : list SymbolPtr) :
  DFA_invariant d →
  DFA.start_states_ d = {[ q0 ]} →
  DFA.is_complete d = true →
  over_alphabet d word →
  xorb (DFA.accepts d word) (DFA.accepts (DFA.complement heap d) word) = true ∧
  DFA.make_complete heap d = d ∧
  DFA.states_ (DFA.complement heap d) = DFA.states_ d ∧
  DFA.input_symbols_ (DFA.complement heap d) = DFA.input_symbols_ d ∧
  DFA.transition_function_dfa_ (DFA.complement heap d) = DFA.transition_function_dfa_ d ∧
  DFA.start_state (DFA.complement heap d) = DFA.start_state d ∧
  (∀ q, q ∈ DFA.final_states_ (DFA.complement heap d) ↔
        q ∈ DFA.states_ d ∧ q ∉ DFA.final_states_ d).
Proof.
  intros [(Hstart & Hfinal & _) Hin] Hq0 Hc Hw.
  assert (q0 ∈ DFA.states_ d) as Hq0in.
  { apply Hstart. fold (DFA.start_states_ d). rewrite Hq0. by apply elem_of_singleton. }
  pose proof (start_state_singleton d q0 Hq0) as Hs.
  rewrite complement_unfold, (make_complete_complete heap d Hc), Hs.
  set (result := DFA.new _ _ _ _ _).
  destruct (mark_non_final_frame (DFA.final_states_ d) result (elements (DFA.states_ d)))
    as (Htf & Hst & Hsym).
  assert (DFA.start_states_ result = {[ q0 ]}) as Hrs.
  { unfold result, DFA.new, DFA.start_states_. cbn. by rewrite (right_id_L ∅ (∪)). }
  assert (∀ q, q ∈ DFA.final_states_
                 (DFA.mark_non_final (DFA.final_states_ d) result (elements (DFA.states_ d))) ↔
               q ∈ DFA.states_ d ∧ q ∉ DFA.final_states_ d) as Hfin.
  { intros q. rewrite mark_non_final_final_states, elem_of_elements.
    unfold result, DFA.new, DFA.final_states_ at 1. cbn. set_solver. }
  split; [|split; [done|split; [|split; [done|split; [done|split; [|done]]]]]].
  - destruct (run_complete d word q0 Hin Hc Hw Hq0in) as (q' & Hrun & Hq').
    unfold DFA.accepts. rewrite Hs, Htf.
    rewrite (start_state_singleton _ q0) by (by rewrite Hst).
    unfold result at 1, DFA.new; cbn [DFA.transition_function_dfa_ default].
    unfold id. rewrite !Hrun.
    destruct (decide (q' ∈ DFA.final_states_ d)) as [Hf|Hf].
    + rewrite bool_decide_eq_true_2, bool_decide_eq_false_2; [done| |done].
      rewrite Hfin. tauto.
    + rewrite bool_decide_eq_false_2, bool_decide_eq_true_2; [done| |done].
      by rewrite Hfin.
  - apply set_eq. intros q. rewrite mark_non_final_states, elem_of_elements.
    unfold result, DFA.new, DFA.states_ at 1. cbn. set_solver.
  - apply start_state_singleton. by rewrite Hst.
Qed.

Lemma complement_accepts_exactly_one_witness :
  DFA_invariant example_dfa ∧
  DFA.start_states_ example_dfa = {[ q0 ]} ∧
  DFA.is_complete example_dfa = true ∧
  over_alphabet example_dfa [sym_a; sym_b; sym_a] ∧
  xorb (DFA.accepts example_dfa [sym_a; sym_b; sym_a])
       (DFA.accepts (DFA.complement 7 example_dfa) [sym_a; sym_b; sym_a]) = true.
Proof.
  assert (DFA_invariant example_dfa) as H1
    by (apply (bool_decide_unpack _); vm_compute; exact I).
  assert (DFA.start_states_ example_dfa = {[ q0 ]}) as H2 by reflexivity.
  assert (DFA.is_complete example_dfa = true) as H3 by (vm_compute; reflexivity).
  assert (over_alphabet example_dfa [sym_a; sym_b; sym_a]) as H4
    by (apply (bool_decide_unpack _); vm_compute; exact I).
  repeat (split; [assumption|]).
  exact (proj1 (complement_accepts_exactly_one 7 example_dfa q0
                  [sym_a; sym_b; sym_a] H1 H2 H3 H4)).
Defined.

End complement.

Section generating_or_nullable.

Import cfg Spec.

Implicit Types (g : CFG.t) (production : ProductionPtr) (X Y : gset CFGObjectPtr).

Lemma forallb_body X (body : list CFGObjectPtr) :
  forallb (fun symbol => bool_decide (symbol ∈ X)) body = true ↔
  ∀ symbol, symbol ∈ body → symbol ∈ X.
Proof.
  rewrite forallb_forall. split; intros H symbol Hin.
  - by apply (bool_decide_eq_true (symbol ∈ X)), H, list_elem_of_In.
  - by apply bool_decide_eq_true, H, list_elem_of_In.
Qed.

(** What one visit of a production does. *)
Lemma visit_production_cases (st : gset CFGObjectPtr * list CFGObjectPtr) production :
  let head := of_variable (Production.head_ (deref production)) in
  (CFG.visit_production st production = st ∧
   ((∀ symbol, symbol ∈ Production.body_ (deref production) → symbol ∈ st.1) →
    head ∈ st.1)) ∨
  (CFG.visit_production st production = ({[ head ]} ∪ st.1, st.2 ++ [head]) ∧
   (head ∉ st.1) ∧
   ∀ symbol, symbol ∈ Production.body_ (deref production) → symbol ∈ st.1).
Proof.
  intros head. unfold CFG.visit_production. fold head.
  case_bool_decide as Hh; [by left|].
  destruct (forallb _ _) eqn:Hb.
  - right. by rewrite forallb_body in Hb.
  - left. split; [done|]. intros Hall. apply forallb_body in Hall. congruence.
Qed.

Lemma pending_mono productions X Y : X ⊆ Y → pending productions Y ≤ pending productions X.
Proof.
  intros Hsub. unfold pending.
  induction productions as [|p ps IH]; [done|].
  rewrite !filter_cons. repeat case_decide; cbn; try lia. set_solver.
Qed.

(** One scan of the productions: the set grows, and every push uses up a
    pending production. *)
Lemma scan_measure productions X (queue : list CFGObjectPtr) :
  let st := foldl CFG.visit_production (X, queue) productions in
  X ⊆ (st.1) ∧
  length (st.2) + pending productions (st.1) ≤ length queue + pending productions X.
Proof.
  revert X queue. induction productions as [|p ps IH]; intros X queue; [done|].
  cbn [foldl]. destruct (visit_production_cases (X, queue) p) as [[-> _]|(-> & Hh & _)].
  - destruct (IH X queue) as [Hsub Hm]. split; [done|].
    unfold pending in *. rewrite !filter_cons.
    repeat case_decide; cbn [length]; try lia. set_solver.
  - cbn [fst snd].
    destruct (IH ({[of_variable (Production.head_ (deref p))]} ∪ X)
                 (queue ++ [of_variable (Production.head_ (deref p))])) as [Hsub Hm].
    split; [set_solver|].
    assert (pending ps ({[of_variable (Production.head_ (deref p))]} ∪ X)
            ≤ pending ps X) as Hp by (apply pending_mono; set_solver).
    rewrite length_app in Hm. cbn [length] in Hm. cbn [fst] in Hh.
    unfold pending in *. rewrite !filter_cons.
    rewrite (decide_False (P := _ ∉ _)) by (intros Hn; apply Hn, Hsub; set_solver).
    rewrite (decide_True (P := _ ∉ X)) by done.
    cbn [length]. lia.
Qed.

(** A scan that pushes nothing leaves the set as it is, and no production of
    the list was applicable. *)
Lemma scan_quiet productions X (queue : list CFGObjectPtr) :
  let st := foldl CFG.visit_production (X, queue) productions in
  ∃ pushed, st.2 = queue ++ pushed ∧
    (pushed = [] → st.1 = X ∧
       ∀ production, production ∈ productions →
         (∀ symbol, symbol ∈ Production.body_ (deref production) → symbol ∈ X) →
         of_variable (Production.head_ (deref production)) ∈ X).
Proof.
  revert X queue. induction productions as [|p ps IH]; intros X queue.
  - exists []. cbn. rewrite app_nil_r. split; [done|]. intros _. split; [done|].
    intros p Hp. by apply elem_of_nil in Hp.
  - cbn [foldl]. destruct (visit_production_cases (X, queue) p) as [[-> Hq]|(-> & Hh & _)].
    + destruct (IH X queue) as (pushed & Hq2 & Hquiet). exists pushed. split; [done|].
      intros Hnil. destruct (Hquiet Hnil) as [HX Hall]. split; [done|].
      intros p' [->|Hp']%elem_of_cons; [exact Hq|by apply Hall].
    + cbn [fst snd].
      destruct (IH ({[of_variable (Production.head_ (deref p))]} ∪ X)
                   (queue ++ [of_variable (Production.head_ (deref p))]))
        as (pushed & Hq2 & _).
      exists (of_variable (Production.head_ (deref p)) :: pushed).
      split; [by rewrite Hq2, <- app_assoc|done].
Qed.

Lemma scan_sound g seed productions X (queue : list CFGObjectPtr) :
  (∀ production, production ∈ productions → production ∈ CFG.productions_ g) →
  sound g seed X →
  sound g seed (foldl CFG.visit_production (X, queue) productions).1.
Proof.
  revert X queue. induction productions as [|p ps IH]; intros X queue Hps HX; [done|].
  cbn [foldl]. destruct (visit_production_cases (X, queue) p) as [[-> _]|(-> & Hh & Hb)].
  - apply IH; [|done]. intros p' Hp'. apply Hps. by right.
  - apply IH; [intros p' Hp'; apply Hps; by right|].
    destruct HX as (Hseed & Hleast & Hheads). cbn [fst] in *.
    split; [set_solver|split].
    + intros Y HsY HcY. specialize (Hleast Y HsY HcY).
      assert (of_variable (Production.head_ (deref p)) ∈ Y); [|set_solver].
      apply HcY; [apply Hps; by left|]. intros symbol Hs. by apply Hleast, Hb.
    + intros x [->%elem_of_singleton|Hx]%elem_of_union; [|by apply Hheads].
      right. exists p. split; [apply Hps; by left|done].
Qed.

(** The [while] loop ends before the fuel does, on the least fixpoint. *)
Lemma process_least_fixpoint g seed fuel X (queue : list CFGObjectPtr) :
  sound g seed X →
  (queue = [] → closed g X) →
  length queue + pending (elements (CFG.productions_ g)) X ≤ fuel →
  ∃ G, CFG.process fuel (elements (CFG.productions_ g)) X queue = Some G ∧
       sound g seed G ∧ closed g G.
Proof.
  revert X queue. induction fuel as [|fuel IH]; intros X queue HX Hq Hfuel.
  - destruct queue as [|current rest]; [|cbn in Hfuel; lia].
    exists X. by split; [|split; [|apply Hq]].
  - destruct queue as [|current rest].
    { exists X. by split; [|split; [|apply Hq]]. }
    cbn [CFG.process].
    pose proof (scan_measure (elements (CFG.productions_ g)) X rest) as [_ Hm].
    pose proof (scan_quiet (elements (CFG.productions_ g)) X rest)
      as (pushed & Hq2 & Hquiet).
    apply IH.
    + apply scan_sound; [|done]. intros p. by rewrite elem_of_elements.
    + rewrite Hq2. intros [-> ->]%app_eq_nil. destruct (Hquiet eq_refl) as [-> Hall].
      intros p Hp. apply Hall. by rewrite elem_of_elements.
    + cbn [length] in Hfuel. lia.
Qed.

Lemma pending_le productions X : pending productions X ≤ length productions.
Proof. unfold pending. apply length_filter. Qed.

(** The seeding loop. *)
Lemma seed_terminals (terminals : list TerminalPtr)
    (st : gset CFGObjectPtr * list CFGObjectPtr) :
  let st' := foldl (fun st terminal =>
                ({[ of_terminal terminal ]} ∪ st.1, st.2 ++ [of_terminal terminal]))
               st terminals in
  (∀ x, x ∈ st'.1 ↔ x ∈ st.1 ∨ ∃ t, t ∈ terminals ∧ x = of_terminal t) ∧
  (st.2 ≠ [] → st'.2 ≠ []).
Proof.
  revert st. induction terminals as [|t ts IH]; intros st.
  - cbn. split; [|done]. intros x. split; [by left|].
    intros [?|(t & Ht & _)]; [done|]. by apply elem_of_nil in Ht.
  - cbn [foldl]. destruct (IH ({[of_terminal t]} ∪ st.1, st.2 ++ [of_terminal t]))
      as [Hin Hne]. split.
    + intros x. rewrite Hin. cbn [fst]. rewrite elem_of_union, elem_of_singleton.
      setoid_rewrite elem_of_cons. naive_solver.
    + intros _. apply Hne. cbn [snd]. by destruct (st.2).
Qed.

Lemma seed_spec epsilon g nullable :
  (CFG.seed epsilon g nullable).1 = seeds epsilon g nullable ∧
  (CFG.seed epsilon g nullable).2 ≠ [].
Proof.
  unfold CFG.seed, seeds. destruct nullable; [done|].
  destruct (seed_terminals (elements (CFG.terminals_ g)) ({[epsilon]}, [epsilon]))
    as [Hin Hne].
  split; [|by apply Hne]. apply set_eq. intros x. rewrite Hin. cbn [fst].
  rewrite elem_of_union, elem_of_map. setoid_rewrite elem_of_elements. naive_solver.
Qed.

(** [get_generating_or_nullable] returns on every grammar. *)
Lemma get_generating_or_nullable_total heap g nullable :
  let epsilon := mkPtr heap Epsilon_obj in
  ∃ E, CFG.get_generating_or_nullable heap g nullable = Some (E ∖ {[ epsilon ]}) ∧
       sound g (seeds epsilon g nullable) E ∧ closed g E.
Proof.
  intros epsilon. unfold CFG.get_generating_or_nullable. fold epsilon.
  destruct (seed_spec epsilon g nullable) as [Hs1 Hs2].
  destruct (process_least_fixpoint g (seeds epsilon g nullable)
              (length (CFG.seed epsilon g nullable).2 +
               length (elements (CFG.productions_ g)))
              (CFG.seed epsilon g nullable).1 (CFG.seed epsilon g nullable).2)
    as (E & HE & Hsound & Hclosed).
  - rewrite Hs1. split; [done|split]; [by intros Y HY _|by left].
  - done.
  - pose proof (pending_le (elements (CFG.productions_ g))
                           (CFG.seed epsilon g nullable).1). lia.
  - exists E. rewrite HE. by cbn.
Qed.

(** C5. On every grammar the analysis returns, and what it returns is the
    least fixpoint without epsilon: the set is seeded with epsilon alone
    (nullable) or with epsilon and the terminals (generating), the head of a
    production whose whole body is in the set is added until no production
    adds a head, and the set returned holds, apart from the terminals of the
    generating seed, heads of productions and nothing else. *)
Theorem get_generating_or_nullable_least_fixpoint
    (heap : N) (g : CFG.t) (nullable : bool) :
  let epsilon := mkPtr heap Epsilon_obj in
  ∃ G, CFG.get_generating_or_nullable heap g nullable = Some G ∧
       least_fixpoint g (seeds epsilon g nullable) ({[ epsilon ]} ∪ G) ∧
       (epsilon ∉ G) ∧
       ∀ x, x ∈ G →
         (nullable = false ∧ ∃ t, t ∈ CFG.terminals_ g ∧ x = of_terminal t) ∨
         (∃ production, production ∈ CFG.productions_ g ∧
                        x = of_variable (Production.head_ (deref production))).
Proof.
  intros epsilon.
  destruct (get_generating_or_nullable_total heap g nullable)
    as (E & HE & (Hseed & Hleast & Hheads) & Hclosed).
  fold epsilon in HE, Hseed, Hleast, Hheads.
  exists (E ∖ {[epsilon]}). split; [done|].
  assert (epsilon ∈ E) as Heps.
  { apply Hseed. unfold seeds. destruct nullable; set_solver. }
  assert ({[epsilon]} ∪ E ∖ {[epsilon]} = E) as ->.
  { apply set_eq. intros x. rewrite elem_of_union, elem_of_difference, elem_of_singleton.
    destruct (decide (x = epsilon)); naive_solver. }
  split; [done|]. split; [set_solver|].
  intros x [Hx Hne]%elem_of_difference. rewrite elem_of_singleton in Hne.
  destruct (Hheads x Hx) as [Hs|?]; [|by right].
  unfold seeds in Hs. destruct nullable.
  - by apply elem_of_singleton in Hs.
  - apply elem_of_union in Hs as [?%elem_of_singleton|Hs]; [done|].
    apply elem_of_map in Hs as (t & -> & Ht). left. eauto.
Qed.

End generating_or_nullable.

Section analyses_and_cache.

Import cfg Spec.

(** The analyses on the example grammar: A is nullable; b, A and B are
    generating, S too, C is not. *)
Example example_cfg_analyses :
  CFG.get_generating_or_nullable 20 example_cfg true = Some {[ of_variable var_A ]} ∧
  CFG.get_generating_or_nullable 20 example_cfg false =
    Some {[ of_terminal ter_b; of_variable var_A; of_variable var_B; of_variable var_S ]}.
Proof. split; vm_compute; reflexivity. Qed.

Lemma set_nullable_symbols_same g s :
  same_grammar g (CFG.set_nullable_symbols g s) ∧
  CFG.generating_symbols_ (CFG.set_nullable_symbols g s) = CFG.generating_symbols_ g ∧
  CFG.nullable_symbols_ (CFG.set_nullable_symbols g s) = s.
Proof. by destruct g. Qed.

Lemma set_generating_symbols_same g s :
  same_grammar g (CFG.set_generating_symbols g s) ∧
  CFG.nullable_symbols_ (CFG.set_generating_symbols g s) = CFG.nullable_symbols_ g ∧
  CFG.generating_symbols_ (CFG.set_generating_symbols g s) = s.
Proof. by destruct g. Qed.

Lemma same_grammar_refl g : same_grammar g g.
Proof. by repeat split. Qed.

(** C7, as the code has it.  [get_nullable_symbols] and
    [get_generating_symbols] return on every grammar, leave every member of
    the grammar object other than their own cache as it was, and leave in
    that cache ([nullable_symbols_], [generating_symbols_]) the set they
    return; a later call returns the cached set and changes nothing.
    [to_normal_form] changes no member. *)
Theorem analyses_write_only_their_cache (heap : N) (g : CFG.t) :
  (∃ s g', CFG.get_nullable_symbols heap g = Some (s, g') ∧
           same_grammar g g' ∧
           CFG.generating_symbols_ g' = CFG.generating_symbols_ g ∧
           CFG.nullable_symbols_ g' = Some s ∧
           ∀ heap', CFG.get_nullable_symbols heap' g' = Some (s, g')) ∧
  (∃ s g', CFG.get_generating_symbols heap g = Some (s, g') ∧
           same_grammar g g' ∧
           CFG.nullable_symbols_ g' = CFG.nullable_symbols_ g ∧
           CFG.generating_symbols_ g' = Some s ∧
           ∀ heap', CFG.get_generating_symbols heap' g' = Some (s, g')) ∧
  (CFG.to_normal_form g).2 = g.
Proof.
  split; [|split; [|done]].
  - unfold CFG.get_nullable_symbols at 1.
    destruct (CFG.nullable_symbols_ g) as [s|] eqn:Hc.
    + exists s, g. repeat split; try done.
      all: intros heap'; unfold CFG.get_nullable_symbols; by rewrite Hc.
    + destruct (get_generating_or_nullable_total heap g true) as (E & -> & _).
      eexists _, _. split; [done|].
      destruct (set_nullable_symbols_same g (Some (E ∖ {[mkPtr heap Epsilon_obj]})))
        as (? & ? & Hn).
      repeat split; try done.
      all: intros heap'; unfold CFG.get_nullable_symbols; by rewrite Hn.
  - unfold CFG.get_generating_symbols at 1.
    destruct (CFG.generating_symbols_ g) as [s|] eqn:Hc.
    + exists s, g. repeat split; try done.
      all: intros heap'; unfold CFG.get_generating_symbols; by rewrite Hc.
    + destruct (get_generating_or_nullable_total heap g false) as (E & -> & _).
      eexists _, _. split; [done|].
      destruct (set_generating_symbols_same g (Some (E ∖ {[mkPtr heap Epsilon_obj]})))
        as (? & ? & Hn).
      repeat split; try done.
      all: intros heap'; unfold CFG.get_generating_symbols; by rewrite Hn.
Qed.

(** C7, as stated, fails: on the example grammar [get_nullable_symbols] and
    [get_generating_symbols] change a member of the grammar object, the
    cache, from empty to the set they return. *)
Lemma analyses_change_the_grammar_object :
  ¬ (∀ heap g s g',
       (CFG.get_nullable_symbols heap g = Some (s, g') → g' = g) ∧
       (CFG.get_generating_symbols heap g = Some (s, g') → g' = g)) ∧
  CFG.nullable_symbols_ example_cfg = None ∧
  (∃ g', CFG.get_nullable_symbols 20 example_cfg = Some ({[ of_variable var_A ]}, g') ∧
         CFG.nullable_symbols_ g' = Some {[ of_variable var_A ]}).
Proof.
  split; [|split; [reflexivity|]].
  - intros H.
    destruct (H 20%N example_cfg {[ of_variable var_A ]}
                (CFG.set_nullable_symbols example_cfg (Some {[ of_variable var_A ]})))
      as [Hn _].
    assert (CFG.get_nullable_symbols 20 example_cfg =
            Some ({[ of_variable var_A ]},
                  CFG.set_nullable_symbols example_cfg (Some {[ of_variable var_A ]})))
      as Hcall by (vm_compute; reflexivity).
    apply Hn, (f_equal CFG.nullable_symbols_) in Hcall. discriminate Hcall.
  - eexists. split; [vm_compute; reflexivity|reflexivity].
Qed.

End analyses_and_cache.

(** ** Further properties of the deterministic automaton *)

Section completion.

Import finite_automaton Spec.

Implicit Types (tf : TF.t) (q sink : StatePtr) (x : SymbolPtr).

Lemma add_transition_is_Some tf f s t q x :
  is_Some (TF.get_next_state tf q x) →
  is_Some (TF.get_next_state (TF.add_transition tf f s t) q x).
Proof.
  intros H. rewrite get_next_state_add_transition. by case_bool_decide.
Qed.


Lemma fill_missing_fill_state sink (states : list StatePtr) symbols tf :
  DFA.fill_missing sink states symbols tf =
  foldl (fun tf q => fill_state sink q symbols tf) tf states.
Proof. done. Qed.

Lemma fill_state_is_Some sink q0 symbols tf :
  (∀ q x, is_Some (TF.get_next_state tf q x) →
          is_Some (TF.get_next_state (fill_state sink q0 symbols tf) q x)) ∧
  (∀ x, x ∈ symbols →
        is_Some (TF.get_next_state (fill_state sink q0 symbols tf) q0 x)).
Proof.
  revert tf. induction symbols as [|s symbols IH]; intros tf.
  { split; [done|]. intros x Hx. by apply elem_of_nil in Hx. }
  cbn [fill_state foldl].
  set (tf1 := match TF.get_next_state tf q0 s with
              | Some _ => tf
              | None => TF.add_transition tf q0 s sink
              end).
  destruct (IH tf1) as [IH1 IH2]. fold (fill_state sink q0 symbols tf1).
  assert (∀ q x, is_Some (TF.get_next_state tf q x) →
                 is_Some (TF.get_next_state tf1 q x)) as H1.
  { intros q x H. unfold tf1. destruct (TF.get_next_state tf q0 s); [done|].
    by apply add_transition_is_Some. }
  split; [intros q x H; by apply IH1, H1|].
  intros x [->|Hx]%elem_of_cons; [|by apply IH2].
  apply IH1. unfold tf1. destruct (TF.get_next_state tf q0 s) eqn:E; [by rewrite E|].
  rewrite get_next_state_add_transition, bool_decide_eq_true_2; done.
Qed.

Lemma fill_missing_is_Some sink (states : list StatePtr) symbols tf :
  (∀ q x, is_Some (TF.get_next_state tf q x) →
          is_Some (TF.get_next_state (DFA.fill_missing sink states symbols tf) q x)) ∧
  (∀ q x, q ∈ states → x ∈ symbols →
          is_Some (TF.get_next_state (DFA.fill_missing sink states symbols tf) q x)).
Proof.
  rewrite fill_missing_fill_state. revert tf.
  induction states as [|q0 states IH]; intros tf.
  { split; [done|]. intros q x Hq. by apply elem_of_nil in Hq. }
  cbn [foldl]. destruct (IH (fill_state sink q0 symbols tf)) as [IH1 IH2].
  destruct (fill_state_is_Some sink q0 symbols tf) as [F1 F2].
  split; [intros q x H; by apply IH1, F1|].
  intros q x [->|Hq]%elem_of_cons Hx; [by apply IH1, F2|by apply IH2].
Qed.

Lemma sink_loops_is_Some sink symbols tf q x :
  is_Some (TF.get_next_state tf q x) →
  is_Some (TF.get_next_state (DFA.sink_loops sink symbols tf) q x).
Proof.
  unfold DFA.sink_loops. revert tf.
  induction symbols as [|s symbols IH]; intros tf H; [done|].
  cbn [foldl]. by apply IH, add_transition_is_Some.
Qed.

Lemma make_complete_result_complete heap d :
  DFA.is_complete (DFA.make_complete heap d) = true.
Proof.
  unfold DFA.make_complete. destruct (DFA.is_complete d) eqn:Hc; [done|].
  apply is_complete_spec. intros q x Hq Hx.
  unfold DFA.states_, DFA.input_symbols_ in Hq, Hx. cbn in Hq, Hx.
  cbn [DFA.transition_function_dfa_].
  apply sink_loops_is_Some, fill_missing_is_Some; by apply elem_of_elements.
Qed.

(** [make_complete] returns a complete automaton, whatever the automaton it
    is given and wherever the sink state is allocated; completing the result
    again returns it as it is, without a second sink. *)
Theorem make_complete_is_complete (heap heap' : N) (d : DFA.t) :
  DFA.is_complete (DFA.make_complete heap d) = true ∧
  DFA.make_complete heap' (DFA.make_complete heap d) = DFA.make_complete heap d.
Proof.
  split; [apply make_complete_result_complete|].
  apply make_complete_complete, make_complete_result_complete.
Qed.

End completion.

Section completion_language.

Import finite_automaton Spec.

Implicit Types (tf : TF.t) (q sink : StatePtr) (x : SymbolPtr).

Lemma get_next_state_key tf q x q' x' :
  key q x = key q' x' → TF.get_next_state tf q x = TF.get_next_state tf q' x'.
Proof. unfold TF.get_next_state. by intros ->. Qed.

Lemma extends_with_sink_refl sink tf : extends_with_sink sink tf tf.
Proof. intros q x. split; [done|]. intros t. by left. Qed.

Lemma extends_with_sink_trans sink tf tf' tf'' :
  extends_with_sink sink tf tf' → extends_with_sink sink tf' tf'' →
  extends_with_sink sink tf tf''.
Proof.
  intros H1 H2 q x. destruct (H1 q x) as [A1 B1], (H2 q x) as [A2 B2]. split.
  - intros t Ht Hq. by apply A2; [apply A1|].
  - intros t Ht. destruct (B2 t Ht) as [Ht'|?]; [by apply B1|by right].
Qed.

Lemma extends_with_sink_add_missing sink tf q0 s :
  TF.get_next_state tf q0 s = None →
  extends_with_sink sink tf (TF.add_transition tf q0 s sink).
Proof.
  intros Hnone q x. rewrite get_next_state_add_transition. split.
  - intros t Ht _. case_bool_decide as Hk; [|done].
    rewrite (get_next_state_key tf _ _ _ _ Hk) in Hnone. congruence.
  - intros t. case_bool_decide; [intros [= <-]; by right|by left].
Qed.

Lemma extends_with_sink_add_loop sink tf s :
  state_value (deref sink) = "sink" →
  extends_with_sink sink tf (TF.add_transition tf sink s sink).
Proof.
  intros Hl q x. rewrite get_next_state_add_transition. split.
  - intros t Ht Hq. case_bool_decide as Hk; [|done].
    unfold key in Hk. injection Hk as Hk _. congruence.
  - intros t. case_bool_decide; [intros [= <-]; by right|by left].
Qed.

Lemma extends_with_sink_fill_state sink q0 symbols tf :
  extends_with_sink sink tf (fill_state sink q0 symbols tf).
Proof.
  revert tf. induction symbols as [|s symbols IH]; intros tf.
  { apply extends_with_sink_refl. }
  cbn [fill_state foldl]. destruct (TF.get_next_state tf q0 s) eqn:E; [apply IH|].
  eapply extends_with_sink_trans; [|apply IH].
  by apply extends_with_sink_add_missing.
Qed.

Lemma extends_with_sink_fill_missing sink (states : list StatePtr) symbols tf :
  extends_with_sink sink tf (DFA.fill_missing sink states symbols tf).
Proof.
  rewrite fill_missing_fill_state. revert tf.
  induction states as [|q0 states IH]; intros tf.
  { apply extends_with_sink_refl. }
  cbn [foldl]. eapply extends_with_sink_trans; [|apply IH].
  apply extends_with_sink_fill_state.
Qed.

Lemma extends_with_sink_sink_loops sink symbols tf :
  state_value (deref sink) = "sink" →
  extends_with_sink sink tf (DFA.sink_loops sink symbols tf).
Proof.
  intros Hl. unfold DFA.sink_loops. revert tf.
  induction symbols as [|s symbols IH]; intros tf.
  { apply extends_with_sink_refl. }
  cbn [foldl]. eapply extends_with_sink_trans; [|apply IH].
  by apply extends_with_sink_add_loop.
Qed.

Lemma make_complete_frame heap d :
  DFA.start_states_ (DFA.make_complete heap d) = DFA.start_states_ d ∧
  DFA.final_states_ (DFA.make_complete heap d) = DFA.final_states_ d ∧
  DFA.input_symbols_ (DFA.make_complete heap d) = DFA.input_symbols_ d ∧
  DFA.states_ d ⊆ DFA.states_ (DFA.make_complete heap d).
Proof.
  unfold DFA.make_complete. destruct (DFA.is_complete d); [done|].
  repeat split. unfold DFA.states_ at 2. cbn. set_solver.
Qed.

Lemma make_complete_extends heap d :
  extends_with_sink (mkPtr heap (mkState "sink"))
    (DFA.transition_function_dfa_ d)
    (DFA.transition_function_dfa_ (DFA.make_complete heap d)).
Proof.
  unfold DFA.make_complete. destruct (DFA.is_complete d).
  { apply extends_with_sink_refl. }
  cbn [DFA.transition_function_dfa_].
  eapply extends_with_sink_trans; [apply extends_with_sink_fill_missing|].
  by apply extends_with_sink_sink_loops.
Qed.

Lemma no_sink_source_label tf q x t :
  no_sink_source tf → TF.get_next_state tf q x = Some t →
  state_value (deref q) ≠ "sink".
Proof.
  unfold TF.get_next_state. intros H Ht.
  destruct (TF.transitions_ tf !! key q x) as [e|] eqn:E; [|done].
  apply (H _ _ E).
Qed.

(** Once in the sink, the loop of [accepts] stays there or stops. *)
Lemma run_from_sink sink tf tf' word :
  no_sink_source tf → state_value (deref sink) = "sink" →
  extends_with_sink sink tf tf' →
  DFA.run tf' sink word = None ∨ DFA.run tf' sink word = Some sink.
Proof.
  intros Hns Hl Hext. induction word as [|x word IH]; [by right|].
  cbn [DFA.run]. destruct (TF.get_next_state tf' sink x) as [t|] eqn:E; [|by left].
  destruct (proj2 (Hext sink x) t E) as [Ht| ->]; [|done].
  by destruct (no_sink_source_label tf sink x t Hns Ht).
Qed.

Lemma run_extends sink tf tf' word q :
  no_sink_source tf → state_value (deref sink) = "sink" →
  extends_with_sink sink tf tf' →
  match DFA.run tf q word with
  | Some q' => DFA.run tf' q word = Some q'
  | None => DFA.run tf' q word = None ∨ DFA.run tf' q word = Some sink
  end.
Proof.
  intros Hns Hl Hext. revert q. induction word as [|x word IH]; intros q; [done|].
  cbn [DFA.run]. destruct (TF.get_next_state tf q x) as [t|] eqn:E.
  - rewrite (proj1 (Hext q x) t E (no_sink_source_label tf q x t Hns E)). apply IH.
  - destruct (TF.get_next_state tf' q x) as [t|] eqn:E'; [|by left].
    destruct (proj2 (Hext q x) t E') as [Ht| ->]; [congruence|].
    by eapply run_from_sink.
Qed.

Lemma make_complete_same_language heap d word :
  no_sink_source (DFA.transition_function_dfa_ d) →
  mkPtr heap (mkState "sink") ∉ DFA.final_states_ d →
  DFA.accepts (DFA.make_complete heap d) word = DFA.accepts d word.
Proof.
  intros Hns Hnf. unfold DFA.accepts, DFA.start_state.
  destruct (make_complete_frame heap d) as (-> & -> & _ & _).
  destruct (head (elements (DFA.start_states_ d))) as [q|]; [|done].
  pose proof (run_extends (mkPtr heap (mkState "sink")) _ _ word q Hns eq_refl
                (make_complete_extends heap d)) as H.
  destruct (DFA.run (DFA.transition_function_dfa_ d) q word) as [q'|].
  - by rewrite H.
  - destruct H as [-> | ->]; [done|]. by rewrite bool_decide_eq_false_2.
Qed.

(** [make_complete] keeps the language: when no transition leaves a state
    labelled "sink" and the sink state that is allocated is not a final state,
    the completed automaton accepts the words of the automaton, all of them
    and no other, also words with symbols outside the alphabet. *)
Theorem make_complete_accepts (heap : N) (d : DFA.t) (word : list SymbolPtr) :
  no_sink_source (DFA.transition_function_dfa_ d) →
  mkPtr heap (mkState "sink") ∉ DFA.final_states_ d →
  DFA.accepts (DFA.make_complete heap d) word = DFA.accepts d word.
Proof. apply make_complete_same_language. Qed.

Lemma make_complete_accepts_witness :
  no_sink_source (DFA.transition_function_dfa_ partial_dfa) ∧
  (mkPtr 7 (mkState "sink") ∉ DFA.final_states_ partial_dfa) ∧
  DFA.is_complete partial_dfa = false ∧
  DFA.accepts (DFA.make_complete 7 partial_dfa) [sym_a; sym_b; sym_a] =
    DFA.accepts partial_dfa [sym_a; sym_b; sym_a].
Proof.
  assert (no_sink_source (DFA.transition_function_dfa_ partial_dfa)) as H1
    by (apply (bool_decide_unpack _); vm_compute; exact I).
  assert (mkPtr 7 (mkState "sink") ∉ DFA.final_states_ partial_dfa) as H2
    by (apply (bool_decide_unpack _); vm_compute; exact I).
  split; [exact H1|]. split; [exact H2|]. split; [vm_compute; reflexivity|].
  exact (make_complete_accepts 7 partial_dfa [sym_a; sym_b; sym_a] H1 H2).
Defined.

End completion_language.

Section completion_invariant.

Import finite_automaton Spec.

Lemma TF_add_transition_inside states tf f s t :
  f ∈ states → t ∈ states → TF_within states tf →
  TF_within states (TF.add_transition tf f s t).
Proof.
  intros Hf Ht H. eapply TF_within_mono; [|by apply TF_add_transition_within].
  set_solver.
Qed.

Lemma fill_state_within states sink q symbols tf :
  sink ∈ states → q ∈ states → TF_within states tf →
  TF_within states (fill_state sink q symbols tf).
Proof.
  intros Hs Hq. revert tf. induction symbols as [|s symbols IH]; intros tf H; [done|].
  cbn [fill_state foldl]. destruct (TF.get_next_state tf q s); apply IH; [done|].
  by apply TF_add_transition_inside.
Qed.

Lemma fill_missing_within states sink (l : list StatePtr) symbols tf :
  sink ∈ states → (∀ q, q ∈ l → q ∈ states) → TF_within states tf →
  TF_within states (DFA.fill_missing sink l symbols tf).
Proof.
  intros Hs. rewrite fill_missing_fill_state. revert tf.
  induction l as [|q l IH]; intros tf Hl H; [done|].
  cbn [foldl]. apply IH; [intros q' Hq'; apply Hl; by right|].
  apply fill_state_within; [done| |done]. apply Hl. by left.
Qed.

Lemma sink_loops_within states sink symbols tf :
  sink ∈ states → TF_within states tf →
  TF_within states (DFA.sink_loops sink symbols tf).
Proof.
  intros Hs. unfold DFA.sink_loops. revert tf.
  induction symbols as [|s symbols IH]; intros tf H; [done|].
  cbn [foldl]. apply IH. by apply TF_add_transition_inside.
Qed.

Lemma make_complete_invariant heap d :
  DFA_invariant d → DFA_invariant (DFA.make_complete heap d).
Proof.
  intros [(Hs & Hf & Hn) Ht]. unfold DFA.make_complete.
  destruct (DFA.is_complete d); [done|].
  split; [split; [|split]|]; cbn.
  - fold (DFA.states_ d). unfold DFA.start_states_. set_solver.
  - fold (DFA.states_ d). unfold DFA.final_states_. set_solver.
  - eapply NTF_within_mono; [|exact Hn]. fold (DFA.states_ d). set_solver.
  - unfold DFA.states_ at 1. cbn. fold (DFA.states_ d).
    apply sink_loops_within; [set_solver|].
    apply fill_missing_within; [set_solver| |].
    + intros q Hq. by apply elem_of_elements in Hq.
    + eapply TF_within_mono; [|exact Ht]. set_solver.
Qed.

(** [make_complete] keeps the invariant of the data model: the sink state
    joins the state set, and every transition that is added goes from a
    member of the state set to the sink. *)
Theorem make_complete_keeps_invariant (heap : N) (d : DFA.t) :
  DFA_invariant d → DFA_invariant (DFA.make_complete heap d).
Proof. apply make_complete_invariant. Qed.

Lemma make_complete_keeps_invariant_witness :
  DFA_invariant partial_dfa ∧ DFA_invariant (DFA.make_complete 7 partial_dfa).
Proof.
  assert (DFA_invariant partial_dfa) as H
    by (apply (bool_decide_unpack _); vm_compute; exact I).
  split; [exact H|]. exact (make_complete_keeps_invariant 7 partial_dfa H).
Defined.

End completion_invariant.

Section complement_language.

Import finite_automaton Spec.

Lemma run_within states tf q word q' :
  TF_within states tf → q ∈ states → DFA.run tf q word = Some q' → q' ∈ states.
Proof.
  intros H. revert q. induction word as [|x word IH]; intros q Hq; cbn [DFA.run].
  - by intros [= <-].
  - destruct (TF.get_next_state tf q x) as [t|] eqn:E; [|done].
    apply IH. by eapply get_next_state_within.
Qed.

(** What [complement] builds from a complete automaton. *)
Lemma complement_complete_structure heap d q0 :
  q0 ∈ DFA.states_ d → DFA.start_states_ d = {[ q0 ]} → DFA.is_complete d = true →
  DFA.states_ (DFA.complement heap d) = DFA.states_ d ∧
  DFA.input_symbols_ (DFA.complement heap d) = DFA.input_symbols_ d ∧
  DFA.transition_function_dfa_ (DFA.complement heap d) = DFA.transition_function_dfa_ d ∧
  DFA.start_states_ (DFA.complement heap d) = {[ q0 ]} ∧
  (∀ q, q ∈ DFA.final_states_ (DFA.complement heap d) ↔
        q ∈ DFA.states_ d ∧ q ∉ DFA.final_states_ d).
Proof.
  intros Hq0 Hs Hc.
  rewrite complement_unfold, (make_complete_complete heap d Hc),
    (start_state_singleton d q0 Hs).
  set (result := DFA.new _ _ _ _ _).
  destruct (mark_non_final_frame (DFA.final_states_ d) result (elements (DFA.states_ d)))
    as (Htf & Hst & Hsym).
  split; [|split; [done|split; [done|split]]].
  - apply set_eq. intros q. rewrite mark_non_final_states, elem_of_elements.
    unfold result, DFA.new, DFA.states_ at 1. cbn. set_solver.
  - rewrite Hst. unfold result, DFA.new, DFA.start_states_. cbn.
    by rewrite (right_id_L ∅ (∪)).
  - intros q. rewrite mark_non_final_final_states, elem_of_elements.
    unfold result, DFA.new, DFA.final_states_ at 1. cbn. set_solver.
Qed.

Lemma is_complete_ext d d' :
  DFA.states_ d' = DFA.states_ d → DFA.input_symbols_ d' = DFA.input_symbols_ d →
  DFA.transition_function_dfa_ d' = DFA.transition_function_dfa_ d →
  DFA.is_complete d' = DFA.is_complete d.
Proof. unfold DFA.is_complete. by intros -> -> ->. Qed.

Lemma complement_complete_negb heap d q0 word :
  q0 ∈ DFA.states_ d → DFA.start_states_ d = {[ q0 ]} →
  TF_within (DFA.states_ d) (DFA.transition_function_dfa_ d) →
  DFA.is_complete d = true → over_alphabet d word →
  DFA.accepts (DFA.complement heap d) word = negb (DFA.accepts d word).
Proof.
  intros Hq0 Hs Ht Hc Hw.
  destruct (complement_complete_structure heap d q0 Hq0 Hs Hc)
    as (_ & _ & Htf & Hst & Hfin).
  destruct (run_complete d word q0 Ht Hc Hw Hq0) as (q' & Hrun & Hq').
  unfold DFA.accepts.
  rewrite (start_state_singleton _ q0 Hst), (start_state_singleton _ q0 Hs), Htf, Hrun.
  destruct (decide (q' ∈ DFA.final_states_ d)) as [Hf|Hf].
  - rewrite (bool_decide_eq_true_2 _ Hf). apply bool_decide_eq_false_2.
    rewrite Hfin. tauto.
  - rewrite (bool_decide_eq_false_2 _ Hf). apply bool_decide_eq_true_2.
    by rewrite Hfin.
Qed.

(** [complement] on any automaton of the data model, complete or not: when no
    transition leaves a state labelled "sink" and the sink state allocated by
    the completion is not final, the complement accepts a word over the
    alphabet exactly when the automaton rejects it. *)
Theorem complement_accepts_negation
    (heap : N) (d : DFA.t) (q0 : StatePtr) (word : list SymbolPtr) :
  DFA_invariant d →
  DFA.start_states_ d = {[ q0 ]} →
  no_sink_source (DFA.transition_function_dfa_ d) →
  mkPtr heap (mkState "sink") ∉ DFA.final_states_ d →
  over_alphabet d word →
  DFA.accepts (DFA.complement heap d) word = negb (DFA.accepts d word).
Proof.
  intros Hinv Hs Hns Hnf Hw.
  pose proof (make_complete_invariant heap d Hinv) as [(Hs' & _ & _) Ht'].
  pose proof (make_complete_result_complete heap d) as Hc'.
  destruct (make_complete_frame heap d) as (Hst & _ & Hsym & _).
  assert (DFA.complement heap d = DFA.complement heap (DFA.make_complete heap d)) as ->.
  { rewrite !complement_unfold. by rewrite (make_complete_complete heap _ Hc'). }
  rewrite <- (make_complete_same_language heap d word Hns Hnf).
  apply (complement_complete_negb heap _ q0); try done.
  - apply Hs'. fold (DFA.start_states_ (DFA.make_complete heap d)).
    rewrite Hst, Hs. by apply elem_of_singleton.
  - by rewrite Hst.
  - unfold over_alphabet. by rewrite Hsym.
Qed.

Lemma complement_accepts_negation_witness :
  DFA_invariant partial_dfa ∧
  DFA.start_states_ partial_dfa = {[ q0 ]} ∧
  no_sink_source (DFA.transition_function_dfa_ partial_dfa) ∧
  (mkPtr 7 (mkState "sink") ∉ DFA.final_states_ partial_dfa) ∧
  over_alphabet partial_dfa [sym_b; sym_a] ∧
  DFA.accepts (DFA.complement 7 partial_dfa) [sym_b; sym_a] =
    negb (DFA.accepts partial_dfa [sym_b; sym_a]).
Proof.
  assert (DFA_invariant partial_dfa) as H1
    by (apply (bool_decide_unpack _); vm_compute; exact I).
  assert (DFA.start_states_ partial_dfa = {[ q0 ]}) as H2 by reflexivity.
  assert (no_sink_source (DFA.transition_function_dfa_ partial_dfa)) as H3
    by (apply (bool_decide_unpack _); vm_compute; exact I).
  assert (mkPtr 7 (mkState "sink") ∉ DFA.final_states_ partial_dfa) as H4
    by (apply (bool_decide_unpack _); vm_compute; exact I).
  assert (over_alphabet partial_dfa [sym_b; sym_a]) as H5
    by (apply (bool_decide_unpack _); vm_compute; exact I).
  repeat (split; [assumption|]).
  exact (complement_accepts_negation 7 partial_dfa q0 [sym_b; sym_a] H1 H2 H3 H4 H5).
Defined.

(** The complement of the complement of a complete automaton of the data
    model accepts the words of the automaton, also words with symbols outside
    the alphabet; its final states are the final states of the automaton that
    are members of the state set. *)
Theorem complement_complement_accepts
    (heap heap' : N) (d : DFA.t) (q0 : StatePtr) (word : list SymbolPtr) :
  DFA_invariant d →
  DFA.start_states_ d = {[ q0 ]} →
  DFA.is_complete d = true →
  DFA.accepts (DFA.complement heap' (DFA.complement heap d)) word = DFA.accepts d word ∧
  (∀ q, q ∈ DFA.final_states_ (DFA.complement heap' (DFA.complement heap d)) ↔
        q ∈ DFA.states_ d ∧ q ∈ DFA.final_states_ d).
Proof.
  intros [(Hstart & _ & _) Ht] Hs Hc.
  assert (q0 ∈ DFA.states_ d) as Hq0.
  { apply Hstart. fold (DFA.start_states_ d). rewrite Hs. by apply elem_of_singleton. }
  destruct (complement_complete_structure heap d q0 Hq0 Hs Hc)
    as (Hst1 & Hsym1 & Htf1 & Hs1 & Hfin1).
  assert (DFA.is_complete (DFA.complement heap d) = true) as Hc1
    by (by rewrite (is_complete_ext d)).
  destruct (complement_complete_structure heap' (DFA.complement heap d) q0)
    as (Hst2 & Hsym2 & Htf2 & Hs2 & Hfin2); [by rewrite Hst1|done|done|].
  assert (∀ q, q ∈ DFA.final_states_ (DFA.complement heap' (DFA.complement heap d)) ↔
               q ∈ DFA.states_ d ∧ q ∈ DFA.final_states_ d) as Hfin.
  { intros q. rewrite Hfin2, Hfin1, Hst1.
    destruct (decide (q ∈ DFA.final_states_ d)); tauto. }
  split; [|done].
  unfold DFA.accepts.
  rewrite (start_state_singleton _ q0 Hs2), (start_state_singleton _ q0 Hs), Htf2, Htf1.
  destruct (DFA.run (DFA.transition_function_dfa_ d) q0 word) as [q'|] eqn:Hrun; [|done].
  pose proof (run_within _ _ _ _ _ Ht Hq0 Hrun) as Hq'.
  apply bool_decide_ext. rewrite Hfin. tauto.
Qed.

Lemma complement_complement_accepts_witness :
  DFA_invariant example_dfa ∧
  DFA.start_states_ example_dfa = {[ q0 ]} ∧
  DFA.is_complete example_dfa = true ∧
  DFA.accepts (DFA.complement 8 (DFA.complement 7 example_dfa)) [sym_a; sym_b] =
    DFA.accepts example_dfa [sym_a; sym_b].
Proof.
  assert (DFA_invariant example_dfa) as H1
    by (apply (bool_decide_unpack _); vm_compute; exact I).
  assert (DFA.start_states_ example_dfa = {[ q0 ]}) as H2 by reflexivity.
  assert (DFA.is_complete example_dfa = true) as H3 by (vm_compute; reflexivity).
  repeat (split; [assumption|]).
  exact (proj1 (complement_complement_accepts 7 8 example_dfa q0 [sym_a; sym_b] H1 H2 H3)).
Defined.

End complement_language.

(** ** Further properties of the transition tables *)

Section transition_tables.

Import finite_automaton Spec.

Lemma PairEqual_key (p1 p2 : StatePtr * SymbolPtr) :
  PairEqual p1 p2 = true ↔ key p1.1 p1.2 = key p2.1 p2.2.
Proof.
  unfold PairEqual, State_eq, Symbol_eq, key.
  rewrite andb_true_iff, !String.eqb_eq. split; [by intros [-> ->]|].
  by intros [= -> ->].
Qed.

(** The keys of the transition tables.  Two pairs that [PairEqual] takes for
    equal have the same labels and the same [PairHash], for every hash of
    strings: the hash agrees with the equality, as an [unordered_map] needs,
    also for an [Epsilon] and a [Symbol] labelled like it, which are equal
    keys. *)
Theorem PairEqual_PairHash
    (hash_string : string → Z) (p1 p2 : StatePtr * SymbolPtr) :
  PairEqual p1 p2 = true →
  key p1.1 p1.2 = key p2.1 p2.2 ∧
  PairHash hash_string p1 = PairHash hash_string p2.
Proof.
  intros Hk%PairEqual_key. split; [done|].
  unfold key in Hk. unfold PairHash, hash_State, hash_Symbol.
  by injection Hk as -> ->.
Qed.

Lemma PairEqual_PairHash_witness :
  let hash_string := fun s => Z.of_nat (String.length s) in
  let p1 := (q0, mkPtr 60 Epsilon_obj) in
  let p2 := (mkPtr 61 (mkState "q0"), mkPtr 62 (Symbol_obj "ε")) in
  PairEqual p1 p2 = true ∧
  key p1.1 p1.2 = key p2.1 p2.2 ∧
  PairHash hash_string p1 = PairHash hash_string p2.
Proof.
  intros hash_string p1 p2.
  assert (PairEqual p1 p2 = true) as H by reflexivity.
  split; [exact H|]. exact (PairEqual_PairHash hash_string p1 p2 H).
Defined.

Lemma NTF_get_next_states_add_transition (tf : NTF.t) f s t f' s' :
  NTF.get_next_states (NTF.add_transition tf f s t) f' s' =
  if bool_decide (key f s = key f' s')
  then {[ t ]} ∪ NTF.get_next_states tf f' s'
  else NTF.get_next_states tf f' s'.
Proof.
  unfold NTF.get_next_states, NTF.add_transition.
  destruct (NTF.transitions_ tf !! key f s) as [[[f0 s0] S0]|] eqn:E;
    cbn [NTF.transitions_]; rewrite lookup_insert; case_decide as Hk;
    rewrite ?bool_decide_eq_true_2, ?bool_decide_eq_false_2 by done; try done.
  - by rewrite <- Hk, E.
  - rewrite <- Hk, E. by rewrite (right_id_L ∅ (∪)).
Qed.

(** [NondeterministicTransitionFunction::add_transition] accumulates: after
    any sequence of calls the targets of a pair of state and symbol are the
    targets the table had for it together with the targets of all the calls
    made for a pair with the same labels, and [has_transition] tells the
    members of that set. *)
Theorem nondeterministic_add_transition_accumulates
    (tf : NTF.t) (calls : list (StatePtr * SymbolPtr * StatePtr))
    (from_state : StatePtr) (symbol : SymbolPtr) (to_state : StatePtr) :
  (to_state ∈ NTF.get_next_states (NTF_add_transitions tf calls) from_state symbol ↔
   to_state ∈ NTF.get_next_states tf from_state symbol ∨
   ∃ f s, (f, s, to_state) ∈ calls ∧ key f s = key from_state symbol) ∧
  NTF.has_transition (NTF_add_transitions tf calls) from_state symbol to_state =
  bool_decide
    (to_state ∈ NTF.get_next_states (NTF_add_transitions tf calls) from_state symbol).
Proof.
  split.
  - revert tf. induction calls as [|[[f s] t] calls IH]; intros tf.
    + cbn. split; [by left|]. intros [?|(f & s & H & _)]; [done|].
      by apply elem_of_nil in H.
    + cbn [NTF_add_transitions foldl]. fold (NTF_add_transitions (NTF.add_transition tf f s t) calls).
      rewrite IH, NTF_get_next_states_add_transition. setoid_rewrite elem_of_cons.
      case_bool_decide as Hk.
      * rewrite elem_of_union, elem_of_singleton. split.
        -- intros [[->|?]|(f' & s' & ? & ?)]; [right; exists f, s; by split; [left|]
             |by left|right; exists f', s'; by split; [right|]].
        -- intros [?|(f' & s' & [[= -> -> ->]|?] & ?)];
             [by left; right|by left; left|right; by exists f', s'].
      * split.
        -- intros [?|(f' & s' & ? & ?)]; [by left|right; exists f', s'; by split; [right|]].
        -- intros [?|(f' & s' & [[= -> -> ->]|?] & ?)];
             [by left|done|right; by exists f', s'].
  - unfold NTF.has_transition, NTF.get_next_states.
    destruct (NTF.transitions_ _ !! _) as [[[? ?] ?]|]; [done|].
    by rewrite bool_decide_eq_false_2.
Qed.

Lemma TF_keyed_add_transition tf f s t :
  TF_keyed tf → TF_keyed (TF.add_transition tf f s t).
Proof.
  intros H. unfold TF_keyed, TF.add_transition.
  destruct (TF.transitions_ tf !! key f s) as [[[f0 s0] t0]|] eqn:E;
    cbn [TF.transitions_]; apply map_Forall_insert_2; try done.
  apply (H _ _ E).
Qed.

Lemma TF_keyed_add_transitions tf calls :
  TF_keyed tf → TF_keyed (add_transitions tf calls).
Proof.
  revert tf. induction calls as [|[[f s] t] calls IH]; intros tf H; [done|].
  cbn [add_transitions foldl]. apply IH. by apply TF_keyed_add_transition.
Qed.

(** [get_transitions] on a table filled by [add_transition]: a transition that
    is listed is the one [get_next_state] and [has_transition] find for its
    state and symbol, a transition that [get_next_state] finds is listed under
    a pair with the same labels, and two listed transitions for pairs with the
    same labels are one transition. *)
Theorem get_transitions_agrees_with_get_next_state
    (calls : list (StatePtr * SymbolPtr * StatePtr)) :
  let tf := add_transitions TF.empty calls in
  (∀ f s t, (f, s, t) ∈ TF.get_transitions tf →
            TF.get_next_state tf f s = Some t ∧ TF.has_transition tf f s t = true) ∧
  (∀ f s t, TF.get_next_state tf f s = Some t →
            ∃ f' s', (f', s', t) ∈ TF.get_transitions tf ∧ key f' s' = key f s) ∧
  (∀ f s t f' s' t', (f, s, t) ∈ TF.get_transitions tf →
                     (f', s', t') ∈ TF.get_transitions tf →
                     key f s = key f' s' → (f, s, t) = (f', s', t')).
Proof.
  intros tf.
  assert (TF_keyed tf) as Hkeyed.
  { apply TF_keyed_add_transitions. apply map_Forall_empty. }
  assert (∀ f s t, (f, s, t) ∈ TF.get_transitions tf →
                   TF.transitions_ tf !! key f s = Some (f, s, t)) as Hin.
  { intros f s t (k & Hk)%elem_of_TF_get_transitions.
    pose proof (Hkeyed _ _ Hk) as Heq. cbn in Heq. by rewrite Heq. }
  split; [|split].
  - intros f s t H%Hin. unfold TF.get_next_state, TF.has_transition. rewrite H.
    by rewrite bool_decide_eq_true_2.
  - intros f s t. unfold TF.get_next_state.
    destruct (TF.transitions_ tf !! key f s) as [[[f' s'] t']|] eqn:E; [|done].
    intros [= ->]. exists f', s'. split.
    + apply elem_of_TF_get_transitions. by exists (key f s).
    + apply (Hkeyed _ _ E).
  - intros f s t f' s' t' H%Hin H'%Hin Hk. rewrite Hk in H. congruence.
Qed.

End transition_tables.

(** ** Further properties of acceptance *)

Section acceptance_labels.

Import finite_automaton Spec.

Lemma NTF_get_next_states_key (tf : NTF.t) q x q' x' :
  key q x = key q' x' → NTF.get_next_states tf q x = NTF.get_next_states tf q' x'.
Proof. unfold NTF.get_next_states. by intros ->. Qed.

Lemma labels_imap (f : nat → string → SymbolPtr) (word : list string) :
  (∀ i symbol_str, symbol_value (deref (f i symbol_str)) = symbol_str) →
  labels (imap f word) = word.
Proof.
  revert f. induction word as [|symbol_str word IH]; intros f Hf; [done|].
  cbn. rewrite Hf. f_equal. apply IH. intros i s. apply Hf.
Qed.

Lemma run_labels tf q (word word' : list SymbolPtr) :
  labels word = labels word' → DFA.run tf q word = DFA.run tf q word'.
Proof.
  revert q word'. induction word as [|x word IH]; intros q [|x' word'] H; try done.
  injection H as Hx Hw. cbn [DFA.run].
  rewrite (get_next_state_key tf q x q x') by (unfold key; by rewrite Hx).
  destruct (TF.get_next_state tf q x'); [by apply IH|done].
Qed.

(** [DeterministicFiniteAutomaton::accepts] looks at the labels of the symbols
    of the word and at nothing else: two words with the same labels are both
    accepted or both rejected, whatever objects they are made of (an epsilon
    object counts as a symbol labelled like it), and the overload on strings,
    called on these labels, returns the same, wherever its new symbols are
    allocated. *)
Theorem dfa_accepts_labels (heap : N) (d : DFA.t) (word word' : list SymbolPtr) :
  labels word = labels word' →
  DFA.accepts d word = DFA.accepts d word' ∧
  DFA.accepts_strings heap d (labels word) = DFA.accepts d word'.
Proof.
  assert (∀ w w', labels w = labels w' → DFA.accepts d w = DFA.accepts d w') as H.
  { intros w w' Hl. unfold DFA.accepts. destruct (DFA.start_state d); [|done].
    by rewrite (run_labels _ _ w w' Hl). }
  intros Hl. split; [by apply H|]. apply H. rewrite <- Hl. by apply labels_imap.
Qed.

Lemma dfa_accepts_labels_witness :
  let word := [sym_a; sym_b] in
  let word' := [mkPtr 40 (Symbol_obj "a"); mkPtr 41 (Symbol_obj "b")] in
  labels word = labels word' ∧
  DFA.accepts example_dfa word = DFA.accepts example_dfa word' ∧
  DFA.accepts_strings 50 example_dfa (labels word) = DFA.accepts example_dfa word'.
Proof.
  intros word word'.
  assert (labels word = labels word') as H by reflexivity.
  split; [exact H|]. exact (dfa_accepts_labels 50 example_dfa word word' H).
Defined.

Lemma next_states_labels (a : NFA.t) (active : StateSet) x x' :
  symbol_value (deref x) = symbol_value (deref x') →
  NFA.next_states a active x = NFA.next_states a active x'.
Proof.
  intros Hx. apply set_eq. intros q. rewrite !elem_of_next_states.
  assert (∀ p, NTF.get_next_states (NFA.transition_function_ a) p x =
               NTF.get_next_states (NFA.transition_function_ a) p x') as Hp.
  { intros p. apply NTF_get_next_states_key. unfold key. by rewrite Hx. }
  by setoid_rewrite Hp.
Qed.

(** [NondeterministicFiniteAutomaton::accepts] too depends on the labels of
    the word only, and the inherited overload on strings agrees with it. *)
Theorem nfa_accepts_labels (heap : N) (a : NFA.t) (word word' : list SymbolPtr) :
  labels word = labels word' →
  NFA.accepts a word = NFA.accepts a word' ∧
  NFA.accepts_strings heap a (labels word) = NFA.accepts a word'.
Proof.
  assert (∀ w w', labels w = labels w' → NFA.accepts a w = NFA.accepts a w') as H.
  { intros w w' Hl. unfold NFA.accepts, NFA.current_states. f_equal. f_equal.
    generalize (NFA.start_states_ a). revert w' Hl.
    induction w as [|x w IH]; intros [|x' w'] Hl S; try done.
    injection Hl as Hx Hw. cbn [foldl]. rewrite (next_states_labels a S x x' Hx).
    by apply IH. }
  intros Hl. split; [by apply H|]. apply H. rewrite <- Hl. by apply labels_imap.
Qed.

Lemma nfa_accepts_labels_witness :
  let a := NFA.add_final_state
             (NFA.add_transition (NFA.add_start_state (NFA.new ∅ ∅ None ∅ ∅) q0)
                                 q0 sym_a q1) q1 in
  let word := [sym_a] in
  let word' := [mkPtr 40 (Symbol_obj "a")] in
  labels word = labels word' ∧
  NFA.accepts a word = NFA.accepts a word' ∧
  NFA.accepts_strings 50 a (labels word) = NFA.accepts a word'.
Proof.
  intros a word word'.
  assert (labels word = labels word') as H by reflexivity.
  split; [exact H|]. exact (nfa_accepts_labels 50 a word word' H).
Defined.

End acceptance_labels.

Section outside_alphabet.

Import finite_automaton Spec.

Lemma declared_mono (syms syms' : SymbolSet) label :
  syms ⊆ syms' → declared syms label → declared syms' label.
Proof. intros Hsub (s & Hs & Hl). exists s. split; [by apply Hsub|done]. Qed.

Lemma TF_symbols_declared_mono (syms syms' : SymbolSet) tf :
  syms ⊆ syms' → TF_symbols_declared syms tf → TF_symbols_declared syms' tf.
Proof. intros Hsub H k e Hk. eapply declared_mono; [done|]. apply (H k e Hk). Qed.

Lemma TF_symbols_declared_add syms tf f s t :
  TF_symbols_declared syms tf →
  TF_symbols_declared ({[ s ]} ∪ syms) (TF.add_transition tf f s t).
Proof.
  intros H. unfold TF_symbols_declared, TF.add_transition.
  assert (declared ({[s]} ∪ syms) (key f s).2) as Hs.
  { exists s. split; [set_solver|done]. }
  destruct (TF.transitions_ tf !! key f s) as [[[f0 s0] t0]|];
    cbn [TF.transitions_]; apply map_Forall_insert_2; try done;
    (eapply TF_symbols_declared_mono; [|exact H]; set_solver).
Qed.

Lemma dfa_apply_op_symbols_declared d op :
  TF_symbols_declared (DFA.input_symbols_ d) (DFA.transition_function_dfa_ d) →
  TF_symbols_declared (DFA.input_symbols_ (dfa_apply_op d op))
                      (DFA.transition_function_dfa_ (dfa_apply_op d op)).
Proof.
  destruct op as [f s t|q|q|q]; cbn; [|done..].
  apply TF_symbols_declared_add.
Qed.

Lemma dfa_build_symbols_declared d ops :
  TF_symbols_declared (DFA.input_symbols_ d) (DFA.transition_function_dfa_ d) →
  TF_symbols_declared (DFA.input_symbols_ (dfa_build d ops))
                      (DFA.transition_function_dfa_ (dfa_build d ops)).
Proof.
  revert d. induction ops as [|op ops IH]; intros d H; [done|].
  apply IH. by apply dfa_apply_op_symbols_declared.
Qed.

Lemma run_over_alphabet d q word q' :
  TF_symbols_declared (DFA.input_symbols_ d) (DFA.transition_function_dfa_ d) →
  DFA.run (DFA.transition_function_dfa_ d) q word = Some q' → over_alphabet d word.
Proof.
  intros H. revert q. induction word as [|x word IH]; intros q; [by constructor|].
  cbn [DFA.run]. unfold TF.get_next_state at 1.
  destruct (TF.transitions_ (DFA.transition_function_dfa_ d) !! key q x)
    as [[[f0 s0] t0]|] eqn:E; [|done].
  intros Hrun. constructor; [apply (H _ _ E)|by eapply IH].
Qed.

(** A word with a symbol outside the alphabet is rejected, it is no error: on
    a deterministic automaton assembled by the builder operations, from one
    whose transitions are all on symbols of its alphabet (the default
    automaton is one), [accepts] returns false on every word that has a symbol
    whose label is the label of no input symbol. *)
Theorem dfa_outside_alphabet_rejected
    (d : DFA.t) (ops : list dfa_builder_op) (word : list SymbolPtr) :
  TF_symbols_declared (DFA.input_symbols_ d) (DFA.transition_function_dfa_ d) →
  ¬ over_alphabet (dfa_build d ops) word →
  DFA.accepts (dfa_build d ops) word = false.
Proof.
  intros H%(dfa_build_symbols_declared d ops) Hw. unfold DFA.accepts.
  destruct (DFA.start_state _) as [q|]; [|done].
  destruct (DFA.run _ q word) as [q'|] eqn:Hrun; [|done].
  destruct Hw. by eapply run_over_alphabet.
Qed.

Lemma dfa_outside_alphabet_rejected_witness :
  let d := DFA.new ∅ ∅ None None ∅ in
  let ops := [Dfa_set_start_state q0; Dfa_add_final_state q0;
              Dfa_add_transition q0 sym_a q0] in
  TF_symbols_declared (DFA.input_symbols_ d) (DFA.transition_function_dfa_ d) ∧
  ¬ over_alphabet (dfa_build d ops) [sym_a; sym_b] ∧
  DFA.accepts (dfa_build d ops) [sym_a; sym_b] = false.
Proof.
  intros d ops.
  assert (TF_symbols_declared (DFA.input_symbols_ d) (DFA.transition_function_dfa_ d))
    as H1 by (apply (bool_decide_unpack _); vm_compute; exact I).
  assert (¬ over_alphabet (dfa_build d ops) [sym_a; sym_b]) as H2
    by (apply (bool_decide_unpack _); vm_compute; exact I).
  split; [exact H1|]. split; [exact H2|].
  exact (dfa_outside_alphabet_rejected d ops [sym_a; sym_b] H1 H2).
Defined.

Lemma NFA_accepts_iff (a : NFA.t) word :
  NFA.accepts a word = true ↔
  ∃ q, q ∈ active_states a (NFA.start_states_ a) word ∧ q ∈ NFA.final_states_ a.
Proof.
  unfold NFA.accepts, NFA.current_states.
  rewrite existsb_final, foldl_next_states_active.
  by setoid_rewrite elem_of_elements.
Qed.

Lemma elem_of_union_of_targets (a : NFA.t) (active : StateSet) x q :
  q ∈ union_of_targets a active x ↔
  ∃ p, p ∈ active ∧ q ∈ NTF.get_next_states (NFA.transition_function_ a) p x.
Proof. unfold union_of_targets. rewrite elem_of_set_bind. naive_solver. Qed.

Lemma active_states_empty (a : NFA.t) word : active_states a ∅ word = ∅.
Proof.
  induction word as [|x word IH]; [done|]. cbn [active_states].
  assert (union_of_targets a ∅ x = ∅) as ->; [|done].
  apply set_eq. intros q. rewrite elem_of_union_of_targets. set_solver.
Qed.

Lemma active_states_over_alphabet (a : NFA.t) (active : StateSet) word q :
  NTF_symbols_declared (NFA.input_symbols_ a) (NFA.transition_function_ a) →
  q ∈ active_states a active word → nfa_over_alphabet a word.
Proof.
  intros H. revert active. induction word as [|x word IH]; intros active Hq.
  { by constructor. }
  cbn [active_states] in Hq.
  destruct (decide (declared (NFA.input_symbols_ a) (symbol_value (deref x)))) as [Hx|Hx].
  { constructor; [done|by eapply IH]. }
  assert (union_of_targets a active x = ∅) as Hempty.
  { apply set_eq. intros p. rewrite elem_of_union_of_targets. split; [|set_solver].
    intros (p0 & _ & Hp). unfold NTF.get_next_states in Hp.
    destruct (NTF.transitions_ (NFA.transition_function_ a) !! key p0 x)
      as [[[f0 s0] S0]|] eqn:E; [|set_solver].
    destruct Hx. apply (H _ _ E). }
  rewrite Hempty, active_states_empty in Hq. set_solver.
Qed.

Lemma NTF_symbols_declared_mono (syms syms' : SymbolSet) tf :
  syms ⊆ syms' → NTF_symbols_declared syms tf → NTF_symbols_declared syms' tf.
Proof. intros Hsub H k e Hk. eapply declared_mono; [done|]. apply (H k e Hk). Qed.

Lemma NTF_symbols_declared_add syms tf f s t :
  NTF_symbols_declared syms tf →
  NTF_symbols_declared ({[ s ]} ∪ syms) (NTF.add_transition tf f s t).
Proof.
  intros H. unfold NTF_symbols_declared, NTF.add_transition.
  assert (declared ({[s]} ∪ syms) (key f s).2) as Hs.
  { exists s. split; [set_solver|done]. }
  destruct (NTF.transitions_ tf !! key f s) as [[[f0 s0] t0]|];
    cbn [NTF.transitions_]; apply map_Forall_insert_2; try done;
    (eapply NTF_symbols_declared_mono; [|exact H]; set_solver).
Qed.

Lemma apply_op_symbols_declared a op :
  declares_symbol op = true →
  NTF_symbols_declared (NFA.input_symbols_ (ENFA.base a))
                       (NFA.transition_function_ (ENFA.base a)) →
  NTF_symbols_declared (NFA.input_symbols_ (ENFA.base (apply_op a op)))
                       (NFA.transition_function_ (ENFA.base (apply_op a op))).
Proof.
  destruct op as [f s t|q|q|f t]; cbn; try done.
  intros _. apply NTF_symbols_declared_add.
Qed.

Lemma build_symbols_declared a ops :
  forallb declares_symbol ops = true →
  NTF_symbols_declared (NFA.input_symbols_ (ENFA.base a))
                       (NFA.transition_function_ (ENFA.base a)) →
  NTF_symbols_declared (NFA.input_symbols_ (ENFA.base (build a ops)))
                       (NFA.transition_function_ (ENFA.base (build a ops))).
Proof.
  revert a. induction ops as [|op ops IH]; intros a Hops H; [done|].
  cbn in Hops. apply andb_true_iff in Hops as [Hop Hops].
  apply IH; [done|]. by apply apply_op_symbols_declared.
Qed.

(** The same for the nondeterministic [accepts]: an automaton assembled with
    [add_transition], [add_start_state] and [add_final_state], from one whose
    transitions are all on symbols of its alphabet, rejects every word that
    has a symbol whose label is the label of no input symbol.
    ([add_epsilon_transition] is left out: it adds a transition under the
    label of epsilon and does not put epsilon into the alphabet.) *)
Theorem nfa_outside_alphabet_rejected
    (a : ENFA.t) (ops : list builder_op) (word : list SymbolPtr) :
  NTF_symbols_declared (NFA.input_symbols_ (ENFA.base a))
                       (NFA.transition_function_ (ENFA.base a)) →
  forallb declares_symbol ops = true →
  ¬ nfa_over_alphabet (ENFA.base (build a ops)) word →
  NFA.accepts (ENFA.base (build a ops)) word = false.
Proof.
  intros H Hops Hw. pose proof (build_symbols_declared a ops Hops H) as H'.
  apply not_true_is_false. intros (q & Hq & _)%NFA_accepts_iff.
  destruct Hw. by eapply active_states_over_alphabet.
Qed.

Lemma nfa_outside_alphabet_rejected_witness :
  let a := ENFA.new 9 ∅ ∅ None ∅ ∅ in
  let ops := [Add_start_state q0; Add_transition q0 sym_a q0; Add_final_state q0] in
  NTF_symbols_declared (NFA.input_symbols_ (ENFA.base a))
                       (NFA.transition_function_ (ENFA.base a)) ∧
  forallb declares_symbol ops = true ∧
  ¬ nfa_over_alphabet (ENFA.base (build a ops)) [sym_a; sym_b] ∧
  NFA.accepts (ENFA.base (build a ops)) [sym_a; sym_b] = false.
Proof.
  intros a ops.
  assert (NTF_symbols_declared (NFA.input_symbols_ (ENFA.base a))
                               (NFA.transition_function_ (ENFA.base a)))
    as H1 by (apply (bool_decide_unpack _); vm_compute; exact I).
  assert (forallb declares_symbol ops = true) as H2 by reflexivity.
  assert (¬ nfa_over_alphabet (ENFA.base (build a ops)) [sym_a; sym_b]) as H3
    by (apply (bool_decide_unpack _); vm_compute; exact I).
  split; [exact H1|]. split; [exact H2|]. split; [exact H3|].
  exact (nfa_outside_alphabet_rejected a ops [sym_a; sym_b] H1 H2 H3).
Defined.

Lemma run_app tf q (word word' : list SymbolPtr) :
  DFA.run tf q (word ++ word') = q' ← DFA.run tf q word; DFA.run tf q' word'.
Proof.
  revert q. induction word as [|x word IH]; intros q; [done|].
  cbn [app DFA.run]. destruct (TF.get_next_state tf q x); [apply IH|done].
Qed.

(** The loop of the deterministic [accepts] composes over concatenation, and a
    missing transition is final: when the run on a word stops at a missing
    transition, every word that begins with it is rejected, and when it ends
    in a state, the word followed by another is accepted exactly when the
    automaton restarted in that state accepts the other. *)
Theorem dfa_accepts_concatenation
    (d : DFA.t) (q0 : StatePtr) (word word' : list SymbolPtr) :
  DFA.start_states_ d = {[ q0 ]} →
  DFA.accepts d (word ++ word') =
  match DFA.run (DFA.transition_function_dfa_ d) q0 word with
  | None => false
  | Some q => DFA.accepts (DFA.set_start_state d q) word'
  end.
Proof.
  intros Hs%start_state_singleton. unfold DFA.accepts at 1. rewrite Hs, run_app.
  destruct (DFA.run (DFA.transition_function_dfa_ d) q0 word) as [q|]; [|done].
  unfold DFA.accepts. by rewrite (start_state_singleton _ q).
Qed.

Lemma dfa_accepts_concatenation_witness :
  DFA.start_states_ partial_dfa = {[ q0 ]} ∧
  DFA.accepts partial_dfa ([sym_b] ++ [sym_a; sym_b]) = false.
Proof.
  assert (DFA.start_states_ partial_dfa = {[ q0 ]}) as H by reflexivity.
  split; [exact H|].
  exact (dfa_accepts_concatenation partial_dfa q0 [sym_b] [sym_a; sym_b] H).
Defined.

End outside_alphabet.

Section builders_and_language.

Import finite_automaton Spec.

Lemma active_states_mono (a a' : NFA.t) (active active' : StateSet) word :
  (∀ p x, NTF.get_next_states (NFA.transition_function_ a) p x ⊆
          NTF.get_next_states (NFA.transition_function_ a') p x) →
  active ⊆ active' →
  active_states a active word ⊆ active_states a' active' word.
Proof.
  intros Htf. revert active active'.
  induction word as [|x word IH]; intros active active' Hsub; [done|].
  cbn [active_states]. apply IH. intros q.
  rewrite !elem_of_union_of_targets. intros (p & Hp & Hq).
  exists p. split; [by apply Hsub|by apply Htf].
Qed.

Lemma NFA_accepts_mono (a a' : NFA.t) word :
  (∀ p x, NTF.get_next_states (NFA.transition_function_ a) p x ⊆
          NTF.get_next_states (NFA.transition_function_ a') p x) →
  NFA.start_states_ a ⊆ NFA.start_states_ a' →
  NFA.final_states_ a ⊆ NFA.final_states_ a' →
  NFA.accepts a word = true → NFA.accepts a' word = true.
Proof.
  intros Htf Hs Hf. rewrite !NFA_accepts_iff. intros (q & Hq & Hfin).
  exists q. split; [|by apply Hf]. by eapply active_states_mono.
Qed.

(** The builder operations of a nondeterministic automaton only add words: a
    word accepted before [add_transition], [add_start_state] or
    [add_final_state] is accepted after it (a nondeterministic
    [add_transition] never replaces a target). *)
Theorem nfa_builders_keep_accepted_words
    (a : NFA.t) (word : list SymbolPtr)
    (from_state : StatePtr) (symbol : SymbolPtr) (to_state state : StatePtr) :
  NFA.accepts a word = true →
  NFA.accepts (NFA.add_transition a from_state symbol to_state) word = true ∧
  NFA.accepts (NFA.add_start_state a state) word = true ∧
  NFA.accepts (NFA.add_final_state a state) word = true.
Proof.
  intros H. split; [|split]; (eapply NFA_accepts_mono; [| | |exact H]); cbn;
    try done; try set_solver.
  intros p x. rewrite NTF_get_next_states_add_transition.
  case_bool_decide; set_solver.
Qed.

Lemma nfa_builders_keep_accepted_words_witness :
  let a := NFA.add_final_state
             (NFA.add_transition (NFA.add_start_state (NFA.new ∅ ∅ None ∅ ∅) q0)
                                 q0 sym_a q1) q1 in
  NFA.accepts a [sym_a] = true ∧
  NFA.accepts (NFA.add_transition a q0 sym_a q2) [sym_a] = true.
Proof.
  intros a.
  assert (NFA.accepts a [sym_a] = true) as H by (vm_compute; reflexivity).
  split; [exact H|].
  exact (proj1 (nfa_builders_keep_accepted_words a [sym_a] q0 sym_a q2 q2 H)).
Defined.

Lemma size_start_states_cases (S : StateSet) :
  size S ≤ 1 → elements S = [] ∨ ∃ q, elements S = [q] ∧ S = {[ q ]}.
Proof.
  unfold size, set_size. cbn. intros H.
  destruct (elements S) as [|q [|q' l]] eqn:E; [by left| |cbn in H; lia].
  right. exists q. split; [done|]. apply set_eq. intros p.
  rewrite <- elem_of_elements, E, elem_of_singleton. apply list_elem_of_singleton.
Qed.

(** The builder operations that the deterministic automaton declares, and the
    inherited [add_final_state], keep the automaton at one start state at
    most, and [set_start_state] makes its argument the start state whatever
    the start states were. *)
Theorem dfa_builders_keep_one_start_state
    (d : DFA.t) (ops : list dfa_builder_op) (state : StatePtr) :
  size (DFA.start_states_ d) ≤ 1 →
  forallb keeps_one_start ops = true →
  size (DFA.start_states_ (dfa_build d ops)) ≤ 1 ∧
  DFA.start_state (DFA.set_start_state (dfa_build d ops) state) = Some state.
Proof.
  intros Hd Hops. split; [|by apply start_state_singleton].
  revert d Hd Hops. induction ops as [|op ops IH]; intros d Hd Hops; [done|].
  cbn in Hops. apply andb_true_iff in Hops as [Hop Hops].
  cbn [dfa_build foldl]. apply IH; [|done].
  destruct op as [f s t|q|q|q]; try done.
  unfold DFA.set_start_state, DFA.start_states_. cbn. by rewrite size_singleton.
Qed.

Lemma dfa_builders_keep_one_start_state_witness :
  let d := DFA.new ∅ ∅ None None ∅ in
  let ops := [Dfa_set_start_state q1; Dfa_add_transition q0 sym_a q1;
              Dfa_set_start_state q0; Dfa_add_final_state q1] in
  size (DFA.start_states_ d) ≤ 1 ∧
  forallb keeps_one_start ops = true ∧
  size (DFA.start_states_ (dfa_build d ops)) ≤ 1.
Proof.
  intros d ops.
  assert (size (DFA.start_states_ d) ≤ 1) as H1 by (vm_compute; lia).
  assert (forallb keeps_one_start ops = true) as H2 by reflexivity.
  split; [exact H1|]. split; [exact H2|].
  exact (proj1 (dfa_builders_keep_one_start_state d ops q2 H1 H2)).
Defined.

(** On a deterministic automaton with one start state at most, the inherited
    [accepts_epsilon] (some start state is final) and the overridden [accepts]
    on the empty word (the first start state is final) agree. *)
Theorem dfa_accepts_epsilon_agrees (d : DFA.t) :
  size (DFA.start_states_ d) ≤ 1 →
  NFA.accepts_epsilon (DFA.base d) = DFA.accepts d [].
Proof.
  intros [E|(q & E & _)]%size_start_states_cases;
    unfold NFA.accepts_epsilon, DFA.accepts, DFA.start_state;
    fold (DFA.start_states_ d); rewrite E; cbn; [done|].
  by rewrite orb_false_r.
Qed.

Lemma dfa_accepts_epsilon_agrees_witness :
  size (DFA.start_states_ example_dfa) ≤ 1 ∧
  NFA.accepts_epsilon (DFA.base example_dfa) = DFA.accepts example_dfa [].
Proof.
  assert (size (DFA.start_states_ example_dfa) ≤ 1) as H by (vm_compute; lia).
  split; [exact H|]. exact (dfa_accepts_epsilon_agrees example_dfa H).
Defined.

End builders_and_language.

(** ** Further properties of productions and grammars *)

Section productions.

Import cfg Spec.


Lemma production_eq_bodies (l l' : list CFGObjectPtr) :
  length l = length l' →
  forallb (fun '(a, b) => negb (CFGObject_neq (deref a) (deref b))) (zip l l') = true ↔
  body_labels l = body_labels l'.
Proof.
  revert l'. induction l as [|a l IH]; intros [|b l'] Hlen; try done.
  cbn [zip zip_with forallb body_labels fmap list_fmap].
  injection Hlen as Hlen. rewrite andb_true_iff, (IH l' Hlen).
  unfold CFGObject_neq, CFGObject_eq. rewrite negb_involutive, String.eqb_eq.
  unfold body_labels. split; [by intros [-> ->]|]. by intros [= -> ->].
Qed.

Lemma production_eq_labels (p p' : Production.t) :
  Production.eq p p' = true ↔
  variable_value (deref (Production.head_ p)) =
    variable_value (deref (Production.head_ p')) ∧
  body_labels (Production.body_ p) = body_labels (Production.body_ p').
Proof.
  unfold Production.eq.
  destruct (String.eqb_spec (variable_value (deref (Production.head_ p)))
                            (variable_value (deref (Production.head_ p')))) as [Hh|Hh];
    cbn [negb orb].
  - destruct (Nat.eqb_spec (length (Production.body_ p))
                           (length (Production.body_ p'))) as [Hl|Hl]; cbn [negb].
    + rewrite (production_eq_bodies _ _ Hl). tauto.
    + split; [done|]. intros [_ Hb]. destruct Hl.
      apply (f_equal length) in Hb. unfold body_labels in Hb.
      by rewrite !length_fmap in Hb.
  - split; [done|]. tauto.
Qed.

(** [Production::operator==] compares labels and nothing else: two productions
    are equal exactly when their heads have the same label and their bodies
    the same sequence of labels.  It is so an equivalence, for which a
    terminal and a variable with one label are the same object of a body. *)
Theorem production_eq_compares_labels (p p' : Production.t) :
  (Production.eq p p' = true ↔
   variable_value (deref (Production.head_ p)) =
     variable_value (deref (Production.head_ p')) ∧
   body_labels (Production.body_ p) = body_labels (Production.body_ p')) ∧
  Production.eq p p = true ∧
  Production.eq p p' = Production.eq p' p ∧
  (∀ h a b label,
     Production.eq (Production.mk h [mkPtr a (Terminal_obj (mkTerminal label))])
                   (Production.mk h [mkPtr b (Variable_obj (mkVariable label))]) = true).
Proof.
  split; [apply production_eq_labels|]. split; [by apply production_eq_labels|]. split.
  - apply eq_true_iff_eq. rewrite !production_eq_labels. split; intros [-> ->]; done.
  - intros h a b label. by apply production_eq_labels.
Qed.

(** [std::hash<Production>] agrees with [Production::operator==]: productions
    that are equal have the same hash, for every hash of strings. *)
Theorem production_hash_agrees_with_eq
    (hash_string : string → Z) (p p' : Production.t) :
  Production.eq p p' = true →
  Production.hash hash_string p = Production.hash hash_string p'.
Proof.
  intros [Hh Hb]%production_eq_labels. unfold Production.hash. rewrite Hh.
  generalize (size_t (hash_string (variable_value (deref (Production.head_ p'))))).
  revert Hb. generalize (Production.body_ p'). generalize (Production.body_ p).
  induction l as [|a l IH]; intros [|b l'] Hb z; try done.
  injection Hb as Ha Hb. cbn [foldl]. rewrite Ha. by apply IH.
Qed.

Lemma production_hash_agrees_with_eq_witness :
  let hash_string := fun s => Z.of_nat (String.length s) in
  let p := Production.new var_S [of_variable var_A; of_terminal ter_b] true in
  let p' := Production.new (mkPtr 70 (mkVariable "S"))
              [mkPtr 71 (Variable_obj (mkVariable "A"));
               mkPtr 72 (Variable_obj (mkVariable "b"))] true in
  Production.eq p p' = true ∧
  Production.hash hash_string p = Production.hash hash_string p'.
Proof.
  intros hash_string p p'.
  assert (Production.eq p p' = true) as H by reflexivity.
  split; [exact H|]. exact (production_hash_agrees_with_eq hash_string p p' H).
Defined.

End productions.

Section grammar_constructor.

Import cfg Spec.

Lemma to_terminal_Some (o : CFGObjectPtr) (t : TerminalPtr) :
  to_terminal o = Some t ↔ o = of_terminal t.
Proof.
  unfold to_terminal, of_terminal, pointer_cast. destruct o as [a [v|t0|]], t as [b t1];
    cbn; split; intros H; by simplify_eq.
Qed.

Lemma to_variable_Some (o : CFGObjectPtr) (v : VariablePtr) :
  to_variable o = Some v ↔ o = of_variable v.
Proof.
  unfold to_variable, of_variable, pointer_cast. destruct o as [a [v0|t0|]], v as [b v1];
    cbn; split; intros H; by simplify_eq.
Qed.

Lemma of_variable_of_terminal (v : VariablePtr) (t : TerminalPtr) :
  of_variable v ≠ of_terminal t.
Proof. by destruct v, t. Qed.

Lemma of_terminal_inj (t t' : TerminalPtr) : of_terminal t = of_terminal t' → t = t'.
Proof. destruct t, t'. unfold of_terminal, pointer_cast. cbn. by intros [= -> ->]. Qed.

Lemma of_variable_inj (v v' : VariablePtr) : of_variable v = of_variable v' → v = v'.
Proof. destruct v, v'. unfold of_variable, pointer_cast. cbn. by intros [= -> ->]. Qed.

(** The loop of [initialize_production_in_cfg] over a body. *)
Lemma initialize_body (body : list CFGObjectPtr)
    (st : gset VariablePtr * gset TerminalPtr) :
  let st' :=
    foldl (fun '(variables, terminals) cfg_object =>
             match to_terminal cfg_object with
             | Some terminal => (variables, {[ terminal ]} ∪ terminals)
             | None =>
                 match to_variable cfg_object with
                 | Some variable => ({[ variable ]} ∪ variables, terminals)
                 | None => (variables, terminals)
                 end
             end) st body in
  (∀ v, v ∈ st'.1 ↔ v ∈ st.1 ∨ of_variable v ∈ body) ∧
  (∀ t, t ∈ st'.2 ↔ t ∈ st.2 ∨ of_terminal t ∈ body).
Proof.
  revert st. induction body as [|o body IH]; intros [V T].
  { cbn. split; intros x; rewrite elem_of_nil; tauto. }
  intros st'. subst st'. cbn [foldl]. cbn zeta in IH. setoid_rewrite elem_of_cons.
  destruct (to_terminal o) as [t0|] eqn:Et.
  - destruct (IH (V, {[t0]} ∪ T)) as [IH1 IH2]. apply to_terminal_Some in Et.
    subst o. split; [intros v|intros t]; rewrite ?IH1, ?IH2; cbn [fst snd];
      rewrite ?elem_of_union, ?elem_of_singleton.
    + pose proof (of_variable_of_terminal v t0). naive_solver.
    + pose proof (of_terminal_inj t t0). naive_solver.
  - destruct (to_variable o) as [v0|] eqn:Ev.
    + destruct (IH ({[v0]} ∪ V, T)) as [IH1 IH2]. apply to_variable_Some in Ev.
      subst o. split; [intros v|intros t]; rewrite ?IH1, ?IH2; cbn [fst snd];
        rewrite ?elem_of_union, ?elem_of_singleton.
      * pose proof (of_variable_inj v v0). naive_solver.
      * pose proof (of_variable_of_terminal v0 t). naive_solver.
    + destruct (IH (V, T)) as [IH1 IH2].
      split; [intros v|intros t]; rewrite ?IH1, ?IH2; cbn [fst snd].
      * split; [tauto|]. intros [?|[Hv|?]]; [tauto| |tauto].
        symmetry in Hv. apply to_variable_Some in Hv. congruence.
      * split; [tauto|]. intros [?|[Hv|?]]; [tauto| |tauto].
        symmetry in Hv. apply to_terminal_Some in Hv. congruence.
Qed.

Lemma initialize_production (st : gset VariablePtr * gset TerminalPtr)
    (production : ProductionPtr) :
  let st' := CFG.initialize_production_in_cfg st production in
  (∀ v, v ∈ st'.1 ↔
        v ∈ st.1 ∨ v = Production.head_ (deref production) ∨
        of_variable v ∈ Production.body_ (deref production)) ∧
  (∀ t, t ∈ st'.2 ↔ t ∈ st.2 ∨ of_terminal t ∈ Production.body_ (deref production)).
Proof.
  unfold CFG.initialize_production_in_cfg.
  destruct (initialize_body (Production.body_ (deref production))
              ({[Production.head_ (deref production)]} ∪ st.1, st.2)) as [H1 H2].
  split; [intros v|intros t]; rewrite ?H1, ?H2; cbn [fst snd]; [|done].
  rewrite elem_of_union, elem_of_singleton. tauto.
Qed.

Lemma initialize_productions (productions : list ProductionPtr)
    (st : gset VariablePtr * gset TerminalPtr) :
  let st' := foldl CFG.initialize_production_in_cfg st productions in
  (∀ v, v ∈ st'.1 ↔
        v ∈ st.1 ∨ ∃ production, production ∈ productions ∧
          (v = Production.head_ (deref production) ∨
           of_variable v ∈ Production.body_ (deref production))) ∧
  (∀ t, t ∈ st'.2 ↔
        t ∈ st.2 ∨ ∃ production, production ∈ productions ∧
          of_terminal t ∈ Production.body_ (deref production)).
Proof.
  revert st. induction productions as [|p ps IH]; intros st.
  { cbn. split; intros x; (split; [tauto|]); intros [?|(p & Hp & _)]; try done;
      by apply elem_of_nil in Hp. }
  cbn [foldl]. destruct (IH (CFG.initialize_production_in_cfg st p)) as [IH1 IH2].
  destruct (initialize_production st p) as [P1 P2].
  split; [intros v; rewrite IH1, P1|intros t; rewrite IH2, P2];
    setoid_rewrite elem_of_cons; naive_solver.
Qed.

(** The constructor of [CFG] folds the symbols of the productions into the
    sets: the variables of the grammar are the variables given, the start
    symbol, the heads of the productions and the variables of their bodies;
    its terminals are the terminals given and the terminals of the bodies
    (an epsilon of a body joins neither set); the start symbol and the
    productions are stored as given, and the caches start empty. *)
Theorem cfg_new_folds_symbols
    (variables : gset VariablePtr) (terminals : gset TerminalPtr)
    (start_symbol : option VariablePtr) (productions : gset ProductionPtr) :
  let g := CFG.new variables terminals start_symbol productions in
  (∀ v, v ∈ CFG.variables_ g ↔
        v ∈ variables ∨ start_symbol = Some v ∨
        ∃ production, production ∈ productions ∧
          (v = Production.head_ (deref production) ∨
           of_variable v ∈ Production.body_ (deref production))) ∧
  (∀ t, t ∈ CFG.terminals_ g ↔
        t ∈ terminals ∨
        ∃ production, production ∈ productions ∧
          of_terminal t ∈ Production.body_ (deref production)) ∧
  CFG.start_symbol_ g = start_symbol ∧
  CFG.productions_ g = productions ∧
  CFG.normal_form_ g = None ∧
  CFG.generating_symbols_ g = None ∧
  CFG.nullable_symbols_ g = None.
Proof.
  cbn. split; [|split; [|done]].
  - intros v. rewrite (proj1 (initialize_productions _ _)). cbn [fst].
    setoid_rewrite elem_of_elements.
    destruct start_symbol as [s|]; rewrite ?elem_of_union, ?elem_of_singleton;
      naive_solver.
  - intros t. rewrite (proj2 (initialize_productions _ _)). cbn [snd].
    by setoid_rewrite elem_of_elements.
Qed.

End grammar_constructor.

Section analyses.

Import cfg Spec.

Lemma epsilon_not_variable heap (v : VariablePtr) :
  of_variable v ≠ mkPtr heap Epsilon_obj.
Proof. by destruct v. Qed.

(** What the analysis returns, in terms of the least fixpoint. *)
Lemma get_generating_or_nullable_closed heap g nullable :
  ∃ E, CFG.get_generating_or_nullable heap g nullable =
         Some (E ∖ {[ mkPtr heap Epsilon_obj ]}) ∧
       least_fixpoint g (seeds (mkPtr heap Epsilon_obj) g nullable) E.
Proof.
  destruct (get_generating_or_nullable_total heap g nullable)
    as (E & HE & (Hseed & Hleast & _) & Hclosed).
  exists E. by split; [|split; [|split]].
Qed.

(** Every nullable symbol is generating: on one grammar, the set of the
    nullable analysis is included in the set of the generating analysis. *)
Theorem nullable_symbols_are_generating (heap : N) (g : CFG.t) :
  ∃ nullable generating,
    CFG.get_generating_or_nullable heap g true = Some nullable ∧
    CFG.get_generating_or_nullable heap g false = Some generating ∧
    nullable ⊆ generating.
Proof.
  destruct (get_generating_or_nullable_closed heap g true) as (En & -> & _ & _ & Hn).
  destruct (get_generating_or_nullable_closed heap g false) as (Eg & -> & Hs & Hc & _).
  eexists _, _. split; [done|split; [done|]].
  assert (En ⊆ Eg); [|set_solver].
  apply Hn; [|done]. cbn in *. set_solver.
Qed.

(** A production built, with filtering, from a body of epsilons only (the
    empty body is one) makes its head nullable, and generating. *)
Theorem epsilon_production_head_is_nullable
    (heap : N) (g : CFG.t) (nullable : bool) (production : ProductionPtr)
    (head : VariablePtr) (body : list CFGObjectPtr) :
  production ∈ CFG.productions_ g →
  deref production = Production.new head body true →
  all_epsilon body →
  ∃ G, CFG.get_generating_or_nullable heap g nullable = Some G ∧ of_variable head ∈ G.
Proof.
  intros Hp Hd Hb.
  destruct (get_generating_or_nullable_closed heap g nullable) as (E & -> & _ & Hc & _).
  eexists. split; [done|].
  apply elem_of_difference. split.
  - specialize (Hc production Hp). rewrite Hd in Hc. cbn in Hc. apply Hc.
    intros symbol [Hne Hin]%list_elem_of_filter.
    unfold all_epsilon in Hb. rewrite Forall_forall in Hb. specialize (Hb _ Hin).
    congruence.
  - rewrite elem_of_singleton. apply epsilon_not_variable.
Qed.

Lemma epsilon_production_head_is_nullable_witness :
  let production := mkPtr 11 (Production.new var_A [eps_6] true) in
  production ∈ CFG.productions_ example_cfg ∧
  deref production = Production.new var_A [eps_6] true ∧
  all_epsilon [eps_6] ∧
  ∃ G, CFG.get_generating_or_nullable 20 example_cfg true = Some G ∧
       of_variable var_A ∈ G.
Proof.
  intros production.
  assert (production ∈ CFG.productions_ example_cfg) as H1
    by (apply (bool_decide_unpack _); vm_compute; exact I).
  assert (deref production = Production.new var_A [eps_6] true) as H2 by reflexivity.
  assert (all_epsilon [eps_6]) as H3 by (repeat constructor).
  split; [exact H1|]. split; [exact H2|]. split; [exact H3|].
  exact (epsilon_production_head_is_nullable 20 example_cfg true production
           var_A [eps_6] H1 H2 H3).
Defined.

(** A grammar in which every production has in its body an object other than
    the epsilon of the analysis has no nullable symbol.  The set is one of
    objects: an epsilon that is left in a body (a production built without
    filtering) is an object of its own and keeps the head out of the set. *)
Theorem no_empty_body_no_nullable (heap : N) (g : CFG.t) :
  no_empty_body (mkPtr heap Epsilon_obj) g →
  CFG.get_generating_or_nullable heap g true = Some ∅.
Proof.
  intros H.
  destruct (get_generating_or_nullable_closed heap g true) as (E & -> & Hs & _ & Hl).
  f_equal. assert (E ⊆ {[mkPtr heap Epsilon_obj]}); [|set_solver].
  apply Hl; [done|]. intros p Hp Hbody.
  destruct (proj1 (Exists_exists _ _) (H p Hp)) as (o & Ho & Hne).
  specialize (Hbody o Ho). set_solver.
Qed.

Lemma no_empty_body_no_nullable_witness :
  let g := CFG.new ∅ ∅ (Some var_A)
             {[ mkPtr 11 (Production.new var_A [eps_6] false);
                mkPtr 12 (Production.new var_B [of_terminal ter_b] true) ]} in
  no_empty_body (mkPtr 20 Epsilon_obj) g ∧
  CFG.get_generating_or_nullable 20 g true = Some ∅.
Proof.
  intros g.
  assert (no_empty_body (mkPtr 20 Epsilon_obj) g) as H
    by (apply (bool_decide_unpack _); vm_compute; exact I).
  split; [exact H|]. exact (no_empty_body_no_nullable 20 g H).
Defined.

(** In a grammar made by the constructor, the head of a production whose body
    holds terminals only is generating: the constructor has put these
    terminals into the set of terminals, which seeds the analysis. *)
Theorem terminal_production_head_is_generating
    (heap : N) (variables : gset VariablePtr) (terminals : gset TerminalPtr)
    (start_symbol : option VariablePtr) (productions : gset ProductionPtr)
    (production : ProductionPtr) :
  production ∈ productions →
  all_terminals (Production.body_ (deref production)) →
  ∃ G, CFG.get_generating_or_nullable heap
         (CFG.new variables terminals start_symbol productions) false = Some G ∧
       of_variable (Production.head_ (deref production)) ∈ G.
Proof.
  intros Hp Hb. set (g := CFG.new variables terminals start_symbol productions).
  destruct (get_generating_or_nullable_closed heap g false) as (E & -> & Hs & Hc & _).
  eexists. split; [done|].
  apply elem_of_difference. split; [|rewrite elem_of_singleton; apply epsilon_not_variable].
  apply Hc; [done|]. intros symbol Hin. apply Hs. cbn.
  unfold all_terminals in Hb. rewrite Forall_forall in Hb.
  destruct (Hb symbol Hin) as [t Ht]. apply to_terminal_Some in Ht. subst symbol.
  apply elem_of_union_r, elem_of_map. exists t. split; [done|].
  apply (proj2 (initialize_productions _ _)). right. exists production.
  by rewrite elem_of_elements.
Qed.

Lemma terminal_production_head_is_generating_witness :
  let production := mkPtr 12 (Production.new var_B [of_terminal ter_b] true) in
  let productions : gset ProductionPtr := {[ production ]} in
  production ∈ productions ∧
  all_terminals (Production.body_ (deref production)) ∧
  ∃ G, CFG.get_generating_or_nullable 20 (CFG.new ∅ ∅ None productions) false = Some G ∧
       of_variable var_B ∈ G.
Proof.
  intros production productions.
  assert (production ∈ productions) as H1
    by (apply (bool_decide_unpack _); vm_compute; exact I).
  assert (all_terminals (Production.body_ (deref production))) as H2
    by (repeat constructor; by eexists).
  split; [exact H1|]. split; [exact H2|].
  exact (terminal_production_head_is_generating 20 ∅ ∅ None productions production H1 H2).
Defined.

Lemma least_fixpoint_unique g seed X Y :
  sound g seed X → closed g X → sound g seed Y → closed g Y → X = Y.
Proof.
  intros (HsX & HlX & _) HcX (HsY & HlY & _) HcY.
  apply set_eq. intros x. split; [by apply HlX|by apply HlY].
Qed.

(** The [while] loop on any order of the productions. *)
Lemma process_least_fixpoint_order g seed (order : list ProductionPtr) fuel X
    (queue : list CFGObjectPtr) :
  (∀ production, production ∈ order ↔ production ∈ CFG.productions_ g) →
  sound g seed X →
  (queue = [] → closed g X) →
  length queue + pending order X ≤ fuel →
  ∃ G, CFG.process fuel order X queue = Some G ∧ sound g seed G ∧ closed g G.
Proof.
  intros Horder. revert X queue. induction fuel as [|fuel IH]; intros X queue HX Hq Hfuel.
  - destruct queue as [|current rest]; [|cbn in Hfuel; lia].
    exists X. by split; [|split; [|apply Hq]].
  - destruct queue as [|current rest].
    { exists X. by split; [|split; [|apply Hq]]. }
    cbn [CFG.process].
    pose proof (scan_measure order X rest) as [_ Hm].
    pose proof (scan_quiet order X rest) as (pushed & Hq2 & Hquiet).
    apply IH.
    + apply scan_sound; [|done]. intros p. apply Horder.
    + rewrite Hq2. intros [-> ->]%app_eq_nil. destruct (Hquiet eq_refl) as [-> Hall].
      intros p Hp. apply Hall. by apply Horder.
    + cbn [length] in Hfuel. lia.
Qed.

(** The result of the analysis does not depend on the order in which the
    [unordered_set] of productions is run through, nor on the number of passes
    allowed beyond the number of productions: the loop run on any enumeration
    of the productions, with at least that fuel, ends on the same set. *)
Theorem analysis_independent_of_order
    (heap : N) (g : CFG.t) (nullable : bool) (order : list ProductionPtr) (fuel : nat) :
  let st := CFG.seed (mkPtr heap Epsilon_obj) g nullable in
  (∀ production, production ∈ order ↔ production ∈ CFG.productions_ g) →
  length st.2 + length order ≤ fuel →
  (E ← CFG.process fuel order st.1 st.2; Some (E ∖ {[ mkPtr heap Epsilon_obj ]})) =
  CFG.get_generating_or_nullable heap g nullable.
Proof.
  intros st Horder Hfuel.
  destruct (get_generating_or_nullable_total heap g nullable) as (E & -> & HsE & HcE).
  destruct (seed_spec (mkPtr heap Epsilon_obj) g nullable) as [Hs1 Hs2].
  destruct (process_least_fixpoint_order g (seeds (mkPtr heap Epsilon_obj) g nullable)
              order fuel st.1 st.2 Horder) as (E' & -> & HsE' & HcE').
  - unfold st. rewrite Hs1. split; [done|split]; [by intros Y HY _|by left].
  - done.
  - pose proof (pending_le order st.1). lia.
  - cbn. by rewrite (least_fixpoint_unique g _ E' E HsE' HcE' HsE HcE).
Qed.

Lemma analysis_independent_of_order_witness :
  let order := reverse (elements (CFG.productions_ example_cfg)) in
  let st := CFG.seed (mkPtr 20 Epsilon_obj) example_cfg false in
  (∀ production, production ∈ order ↔ production ∈ CFG.productions_ example_cfg) ∧
  length st.2 + length order ≤ 9 ∧
  (E ← CFG.process 9 order st.1 st.2; Some (E ∖ {[ mkPtr 20 Epsilon_obj ]})) =
  CFG.get_generating_or_nullable 20 example_cfg false.
Proof.
  intros order st.
  assert (∀ production, production ∈ order ↔ production ∈ CFG.productions_ example_cfg)
    as H1 by (intros p; unfold order; by rewrite elem_of_reverse, elem_of_elements).
  assert (length st.2 + length order ≤ 9) as H2 by (vm_compute; lia).
  split; [exact H1|]. split; [exact H2|].
  exact (analysis_independent_of_order 20 example_cfg false order 9 H1 H2).
Defined.

End analyses.

Section nondeterministic_table.

Import finite_automaton Spec.

Lemma NTF_keyed_add_transition tf f s t :
  NTF_keyed tf → NTF_keyed (NTF.add_transition tf f s t).
Proof.
  intros H. unfold NTF_keyed, NTF.add_transition.
  destruct (NTF.transitions_ tf !! key f s) as [[[f0 s0] S0]|] eqn:E;
    cbn [NTF.transitions_]; apply map_Forall_insert_2; try done.
  apply (H _ _ E).
Qed.

Lemma NTF_keyed_add_transitions tf calls :
  NTF_keyed tf → NTF_keyed (NTF_add_transitions tf calls).
Proof.
  revert tf. induction calls as [|[[f s] t] calls IH]; intros tf H; [done|].
  cbn [NTF_add_transitions foldl]. apply IH. by apply NTF_keyed_add_transition.
Qed.

(** [get_transitions] on a nondeterministic table filled by [add_transition]:
    the transitions listed are those [has_transition] and [get_next_states]
    know, each target of a pair of state and symbol is listed under a pair with
    the same labels, and the transitions listed for one pair of labels all
    carry the same state and the same symbol object. *)
Theorem nondeterministic_get_transitions_agrees
    (calls : list (StatePtr * SymbolPtr * StatePtr)) :
  let tf := NTF_add_transitions NTF.empty calls in
  (∀ f s t, (f, s, t) ∈ NTF.get_transitions tf →
            t ∈ NTF.get_next_states tf f s ∧ NTF.has_transition tf f s t = true) ∧
  (∀ f s t, t ∈ NTF.get_next_states tf f s →
            ∃ f' s', (f', s', t) ∈ NTF.get_transitions tf ∧ key f' s' = key f s) ∧
  (∀ f s t f' s' t', (f, s, t) ∈ NTF.get_transitions tf →
                     (f', s', t') ∈ NTF.get_transitions tf →
                     key f s = key f' s' → f = f' ∧ s = s').
Proof.
  intros tf.
  assert (NTF_keyed tf) as Hkeyed.
  { apply NTF_keyed_add_transitions. apply map_Forall_empty. }
  assert (∀ f s t, (f, s, t) ∈ NTF.get_transitions tf →
            ∃ S, NTF.transitions_ tf !! key f s = Some (f, s, S) ∧ t ∈ S) as Hin.
  { intros f s t (k & S & Hk & Ht)%elem_of_NTF_get_transitions.
    pose proof (Hkeyed _ _ Hk) as Heq. cbn in Heq. exists S. by rewrite Heq. }
  split; [|split].
  - intros f s t (S & HS & Ht)%Hin. unfold NTF.get_next_states, NTF.has_transition.
    rewrite HS. by rewrite bool_decide_eq_true_2.
  - intros f s t. unfold NTF.get_next_states.
    destruct (NTF.transitions_ tf !! key f s) as [[[f' s'] S]|] eqn:E; [|set_solver].
    intros Ht. exists f', s'. split.
    + apply elem_of_NTF_get_transitions. by exists (key f s), S.
    + apply (Hkeyed _ _ E).
  - intros f s t f' s' t' (S & HS & _)%Hin (S' & HS' & _)%Hin Hk.
    rewrite Hk in HS. split; congruence.
Qed.

End nondeterministic_table.
